(** * cdx_proxy_cli_v2: rotation pool, trace ring buffer and path rules

  A shallow embedding of

  - [auth/models.py]   ([AuthRecord], [AuthState]),
  - [auth/rotation.py] ([RoundRobinAuthPool]),
  - [observability/trace_store.py] ([TraceStore]),
  - [proxy/rules.py]   ([rewrite_request_path], [trace_route],
    [is_primary_responses_path] and the header functions),

  together with the properties the specification states about them.

  Conventions.  Python [int] is [Z].  Timestamps ([time.time()], the
  [*_until] fields) are [Z] as well: the code only adds integer
  constants to them, compares them and takes [max], and every function
  that reads the clock takes the reading as an explicit argument [now].
  Python [str] is [string]; [Optional[T]] is [option T]. *)

From stdpp Require Import gmap strings list fin_maps.
From Stdlib Require Import ZArith Lia Ascii.

Local Open Scope Z_scope.

(** ** auth/models.py *)

Module Models.

Record AuthRecord := mkAuthRecord {
  name : string;
  path : string;
  token : string;
  email : option string;
  account_id : option string;
}.

Record AuthState := mkAuthState {
  record : AuthRecord;
  cooldown_until : Z;
  blacklist_until : Z;
  blacklist_reason : option string;
  probation_successes : Z;
  probation_target : Z;
  next_probe_after : Z;
  used : Z;
  errors : Z;
  rate_limit_strikes : Z;
  hard_failures : Z;
}.

(** [AuthState(record=r)]: the dataclass defaults. *)
Definition fresh_state (r : AuthRecord) : AuthState :=
  {| record := r;
     cooldown_until := 0;
     blacklist_until := 0;
     blacklist_reason := None;
     probation_successes := 2;
     probation_target := 2;
     next_probe_after := 0;
     used := 0;
     errors := 0;
     rate_limit_strikes := 0;
     hard_failures := 0 |}.

(** Attribute assignment [state.f = v], one setter per field written
    by the pool. *)
Definition set_cooldown_until (v : Z) (s : AuthState) : AuthState :=
  mkAuthState (record s) v (blacklist_until s) (blacklist_reason s)
    (probation_successes s) (probation_target s) (next_probe_after s)
    (used s) (errors s) (rate_limit_strikes s) (hard_failures s).

Definition set_blacklist_until (v : Z) (s : AuthState) : AuthState :=
  mkAuthState (record s) (cooldown_until s) v (blacklist_reason s)
    (probation_successes s) (probation_target s) (next_probe_after s)
    (used s) (errors s) (rate_limit_strikes s) (hard_failures s).

Definition set_blacklist_reason (v : option string) (s : AuthState) : AuthState :=
  mkAuthState (record s) (cooldown_until s) (blacklist_until s) v
    (probation_successes s) (probation_target s) (next_probe_after s)
    (used s) (errors s) (rate_limit_strikes s) (hard_failures s).

Definition set_probation_successes (v : Z) (s : AuthState) : AuthState :=
  mkAuthState (record s) (cooldown_until s) (blacklist_until s) (blacklist_reason s)
    v (probation_target s) (next_probe_after s)
    (used s) (errors s) (rate_limit_strikes s) (hard_failures s).

Definition set_probation_target (v : Z) (s : AuthState) : AuthState :=
  mkAuthState (record s) (cooldown_until s) (blacklist_until s) (blacklist_reason s)
    (probation_successes s) v (next_probe_after s)
    (used s) (errors s) (rate_limit_strikes s) (hard_failures s).

Definition set_next_probe_after (v : Z) (s : AuthState) : AuthState :=
  mkAuthState (record s) (cooldown_until s) (blacklist_until s) (blacklist_reason s)
    (probation_successes s) (probation_target s) v
    (used s) (errors s) (rate_limit_strikes s) (hard_failures s).

Definition set_used (v : Z) (s : AuthState) : AuthState :=
  mkAuthState (record s) (cooldown_until s) (blacklist_until s) (blacklist_reason s)
    (probation_successes s) (probation_target s) (next_probe_after s)
    v (errors s) (rate_limit_strikes s) (hard_failures s).

Definition set_errors (v : Z) (s : AuthState) : AuthState :=
  mkAuthState (record s) (cooldown_until s) (blacklist_until s) (blacklist_reason s)
    (probation_successes s) (probation_target s) (next_probe_after s)
    (used s) v (rate_limit_strikes s) (hard_failures s).

Definition set_rate_limit_strikes (v : Z) (s : AuthState) : AuthState :=
  mkAuthState (record s) (cooldown_until s) (blacklist_until s) (blacklist_reason s)
    (probation_successes s) (probation_target s) (next_probe_after s)
    (used s) (errors s) v (hard_failures s).

Definition set_hard_failures (v : Z) (s : AuthState) : AuthState :=
  mkAuthState (record s) (cooldown_until s) (blacklist_until s) (blacklist_reason s)
    (probation_successes s) (probation_target s) (next_probe_after s)
    (used s) (errors s) (rate_limit_strikes s) v.

(** [AuthState.available]: three early [return False], then [True]. *)
Definition available (s : AuthState) (now : Z) : bool :=
  if now <? blacklist_until s then false
  else if now <? cooldown_until s then false
  else if (probation_successes s <? probation_target s)
            && (now <? next_probe_after s) then false
  else true.

(** [AuthState.status]. *)
Definition status (s : AuthState) (now : Z) : string :=
  if now <? blacklist_until s then "BLACKLIST"
  else if now <? cooldown_until s then "COOLDOWN"
  else if probation_successes s <? probation_target s then
    if now <? next_probe_after s then "BLACKLIST" else "PROBATION"
  else "OK".

End Models.

(** ** auth/rotation.py *)

Module Rotation.
Import Models.

Definition DEFAULT_COOLDOWN_SECONDS : Z := 30.
Definition DEFAULT_TRANSIENT_COOLDOWN_SECONDS : Z := 8.
Definition DEFAULT_BLACKLIST_SECONDS : Z := 15 * 60.
Definition MAX_COOLDOWN_SECONDS : Z := 15 * 60.
Definition MAX_BLACKLIST_SECONDS : Z := 6 * 60 * 60.
Definition PROBATION_PROBE_INTERVAL_SECONDS : Z := 20.
Definition PROBATION_SUCCESS_TARGET : Z := 2.

(** [RoundRobinAuthPool]: [_states] and [_index]; the lock serialises
    the methods, each of which is one transition below. *)
Record Pool := mkPool {
  states : list AuthState;
  index : Z;
}.

Definition empty_pool : Pool := mkPool [] 0.

(** [{state.record.name: state for state in self._states}]: a later
    state with the same name replaces an earlier one. *)
Definition previous (sts : list AuthState) : gmap string AuthState :=
  foldl (λ m st, <[name (record st) := st]> m) ∅ sts.

(** Body of the [for record in records] loop of [load]. *)
Definition load_state (prev_by_name : gmap string AuthState)
    (r : AuthRecord) : AuthState :=
  let state := fresh_state r in
  match prev_by_name !! name r with
  | Some prev =>
      let same_token := String.eqb (token (record prev)) (token r) in
      let state := set_used (used prev) state in
      let state := set_errors (errors prev) state in
      if same_token then
        let state := set_cooldown_until (cooldown_until prev) state in
        let state := set_blacklist_until (blacklist_until prev) state in
        let state := set_blacklist_reason (blacklist_reason prev) state in
        let state := set_probation_successes (probation_successes prev) state in
        let state := set_probation_target (probation_target prev) state in
        let state := set_next_probe_after (next_probe_after prev) state in
        let state := set_rate_limit_strikes (rate_limit_strikes prev) state in
        set_hard_failures (hard_failures prev) state
      else
        let state := set_probation_successes PROBATION_SUCCESS_TARGET state in
        set_probation_target PROBATION_SUCCESS_TARGET state
  | None => state
  end.

Definition load (p : Pool) (records : list AuthRecord) : Pool :=
  let next_states := load_state (previous (states p)) <$> records in
  {| states := next_states;
     index := match next_states with
              | [] => 0
              | _ => index p `mod` Z.of_nat (length next_states)
              end |}.

(** [_mark_success]. *)
Definition mark_success (state : AuthState) (now : Z) : AuthState :=
  let state := set_cooldown_until 0 state in
  let state := set_rate_limit_strikes 0 state in
  if probation_successes state <? probation_target state then
    let state := set_probation_successes (probation_successes state + 1) state in
    if probation_target state <=? probation_successes state then
      let state := set_blacklist_until 0 state in
      let state := set_blacklist_reason None state in
      set_next_probe_after 0 state
    else state
  else if blacklist_until state <=? now then
    set_blacklist_reason None state
  else state.

(** [_rate_limit_cooldown_seconds]. *)
Definition rate_limit_cooldown_seconds (strikes : Z) : Z :=
  let power := Z.min (Z.max (strikes - 1) 0) 6 in
  Z.min MAX_COOLDOWN_SECONDS (DEFAULT_COOLDOWN_SECONDS * 2 ^ power).

(** The ttl computed inside [_mark_blacklist] from the incremented
    [hard_failures]. *)
Definition blacklist_ttl (hard_failures : Z) : Z :=
  let ttl_power := Z.min (Z.max (hard_failures - 1) 0) 4 in
  Z.min MAX_BLACKLIST_SECONDS (DEFAULT_BLACKLIST_SECONDS * 2 ^ ttl_power).

(** [_mark_blacklist]. *)
Definition mark_blacklist (state : AuthState) (now : Z) (reason : string)
    : AuthState :=
  let state := set_errors (errors state + 1) state in
  let state := set_hard_failures (hard_failures state + 1) state in
  let ttl := blacklist_ttl (hard_failures state) in
  let state :=
    set_blacklist_until
      (Z.max (blacklist_until state) (now + Z.max 1 ttl)) state in
  let state := set_blacklist_reason (Some reason) state in
  let state := set_probation_target PROBATION_SUCCESS_TARGET state in
  let state := set_probation_successes 0 state in
  let state := set_next_probe_after (blacklist_until state) state in
  set_cooldown_until
    (Z.max (cooldown_until state) (blacklist_until state)) state.

(** The first three statements of [_mark_rate_limited], up to and
    including the assignment to [cooldown_until]. *)
Definition rate_limited_cooldown (state : AuthState) (now : Z)
    (seconds_override : option Z) : AuthState :=
  let state := set_errors (errors state + 1) state in
  let state := set_rate_limit_strikes (rate_limit_strikes state + 1) state in
  let cooldown :=
    match seconds_override with
    | Some seconds => seconds
    | None => rate_limit_cooldown_seconds (rate_limit_strikes state)
    end in
  set_cooldown_until
    (Z.max (cooldown_until state) (now + Z.max 1 cooldown)) state.

(** [_mark_rate_limited]. *)
Definition mark_rate_limited (state : AuthState) (now : Z)
    (seconds_override : option Z) : AuthState :=
  let state := rate_limited_cooldown state now seconds_override in
  if 5 <=? rate_limit_strikes state then
    mark_blacklist state now "rate_limited_persistent"
  else state.

(** [_mark_transient_failure]. *)
Definition mark_transient_failure (state : AuthState) (now : Z) : AuthState :=
  let state := set_errors (errors state + 1) state in
  set_cooldown_until
    (Z.max (cooldown_until state) (now + DEFAULT_TRANSIENT_COOLDOWN_SECONDS))
    state.

(** [error_code or default]: [None] and the empty string are falsy. *)
Definition or_default (error_code : option string) (default : string) : string :=
  match error_code with
  | Some (String c rest) => String c rest
  | _ => default
  end.

(** Body of the loop of [mark_result] once the name has matched: the
    classification of [status] and the transition it selects. *)
Definition mark_result_state (status : Z) (error_code : option string)
    (cooldown_seconds : option Z) (now : Z) (state : AuthState) : AuthState :=
  if (200 <=? status) && (status <? 400) then
    mark_success state now
  else if (status =? 401) || (status =? 403) then
    let reason :=
      or_default error_code
        (if status =? 401 then "token_invalid" else "forbidden") in
    mark_blacklist state now reason
  else if status =? 429 then
    mark_rate_limited state now (Z.max 1 <$> cooldown_seconds)
  else if (500 <=? status)
            || ((status =? 408) || (status =? 409) || (status =? 425)) then
    mark_transient_failure state now
  else
    mark_transient_failure state now.

(** [for state in self._states]: skip while the name differs, update
    the first state whose name matches, then [return]. *)
Fixpoint mark_first (auth_name : string) (f : AuthState → AuthState)
    (sts : list AuthState) : list AuthState :=
  match sts with
  | [] => []
  | state :: rest =>
      if decide (name (record state) = auth_name)
      then f state :: rest
      else state :: mark_first auth_name f rest
  end.

(** [mark_result]; [now] is the value of [time.time()] read under the
    lock. *)
Definition mark_result (p : Pool) (auth_name : string) (status : Z)
    (error_code : option string) (cooldown_seconds : option Z) (now : Z)
    : Pool :=
  {| states :=
       mark_first auth_name
         (mark_result_state status error_code cooldown_seconds now)
         (states p);
     index := index p |}.

(** [mark_cooldown]: the legacy helper. *)
Definition mark_cooldown (p : Pool) (auth_name : string) (seconds : Z)
    (now : Z) : Pool :=
  mark_result p auth_name 429 None (Some seconds) now.

(** The state [mark_result] acts on: the first one carrying the name. *)
Fixpoint find_state (auth_name : string) (sts : list AuthState)
    : option AuthState :=
  match sts with
  | [] => None
  | state :: rest =>
      if decide (name (record state) = auth_name)
      then Some state
      else find_state auth_name rest
  end.

(** The two assignments [pick] makes to the state it has chosen. *)
Definition pick_state (state : AuthState) (now : Z) : AuthState :=
  let state := set_used (used state + 1) state in
  if probation_successes state <? probation_target state then
    set_next_probe_after (now + PROBATION_PROBE_INTERVAL_SECONDS) state
  else state.

(** [[state for state in self._states if state.available(now)]], each
    state named by its position in [_states]: the objects of the list
    are distinct, and [pick] updates the one it chooses in place. *)
Fixpoint available_from (i : nat) (sts : list AuthState) (now : Z) : list nat :=
  match sts with
  | [] => []
  | state :: rest =>
      if available state now
      then i :: available_from (S i) rest now
      else available_from (S i) rest now
  end.

Definition available_positions (sts : list AuthState) (now : Z) : list nat :=
  available_from 0 sts now.

(** [pick]: the state returned (as it is after the update) and the pool. *)
Definition pick (p : Pool) (now : Z) : option AuthState * Pool :=
  let available := available_positions (states p) now in
  match available with
  | [] => (None, p)
  | _ =>
      let n := Z.of_nat (length available) in
      match available !! Z.to_nat (index p `mod` n) with
      | Some pos =>
          match states p !! pos with
          | Some state =>
              let state := pick_state state now in
              (Some state,
               {| states := <[pos := state]> (states p);
                  index := (index p + 1) `mod` n |})
          | None => (None, p)
          end
      | None => (None, p)
      end
  end.

(** [count] and [auth_files]. *)
Definition count (p : Pool) : Z := Z.of_nat (length (states p)).

Definition auth_files (p : Pool) : list string :=
  (λ state, name (record state)) <$> states p.

(** The dict [stats] returns. *)
Record Stats := mkStats {
  stats_ok : Z;
  stats_cooldown : Z;
  stats_blacklist : Z;
  stats_probation : Z;
  stats_total : Z;
}.

(** One round of the loop of [stats]. *)
Definition stats_step (now : Z) (counts : Stats) (state : AuthState) : Stats :=
  let label := status state now in
  if String.eqb label "OK" then
    mkStats (stats_ok counts + 1) (stats_cooldown counts)
      (stats_blacklist counts) (stats_probation counts) (stats_total counts)
  else if String.eqb label "COOLDOWN" then
    mkStats (stats_ok counts) (stats_cooldown counts + 1)
      (stats_blacklist counts) (stats_probation counts) (stats_total counts)
  else if String.eqb label "PROBATION" then
    mkStats (stats_ok counts) (stats_cooldown counts)
      (stats_blacklist counts) (stats_probation counts + 1) (stats_total counts)
  else
    mkStats (stats_ok counts) (stats_cooldown counts)
      (stats_blacklist counts + 1) (stats_probation counts) (stats_total counts).

Definition stats (p : Pool) (now : Z) : Stats :=
  foldl (stats_step now) (mkStats 0 0 0 0 (Z.of_nat (length (states p))))
    (states p).

End Rotation.

(** ** observability/trace_store.py *)

Module Trace.

(** Python objects live in a store and are named by references; a dict
    that is passed to [add], the payload it returns and the lists that
    [list] returns are such references, so that sharing is visible. *)
Abbreviation loc := positive.

(** The values an event dict holds ([Dict[str, Any]]). *)
Inductive PyVal :=
  | PyNone
  | PyBool (b : bool)
  | PyInt (z : Z)
  | PyStr (s : string)
  | PyRef (l : loc).

Inductive Obj :=
  | ODict (d : gmap string PyVal)
  | OList (refs : list loc).

(** A new object is allocated at a reference not in use. *)
Definition alloc (h : gmap loc Obj) (o : Obj) : gmap loc Obj * loc :=
  let l := fresh (dom h) in (<[l := o]> h, l).

(** [TraceStore]: [_max_size], [_items] (the deque object) and [_seq]. *)
Record TraceStore := mkTraceStore {
  max_size : Z;
  items : loc;
  seq : Z;
}.

(** [TraceStore.__init__]. *)
Definition init (h : gmap loc Obj) (max_size : Z) : gmap loc Obj * TraceStore :=
  let m := Z.max 1 max_size in
  let '(h1, q) := alloc h (OList []) in
  (h1, {| max_size := m; items := q; seq := 0 |}).

(** [deque.append] on a deque built with [maxlen]: append on the right,
    then drop the leftmost element when the length exceeds [maxlen]. *)
Definition deque_append (maxlen : Z) (q : list loc) (x : loc) : list loc :=
  let q1 := q ++ [x] in
  if maxlen <? Z.of_nat (length q1) then tail q1 else q1.

(** [TraceStore.add]; [None] when [event] is not a dict (and when the
    store's deque is not in the store, which [init] excludes). *)
Definition add (h : gmap loc Obj) (st : TraceStore) (event : loc)
    : option (gmap loc Obj * TraceStore * loc) :=
  match h !! event, h !! items st with
  | Some (ODict d), Some (OList q) =>
      let seq1 := seq st + 1 in
      let '(h1, payload) := alloc h (ODict d) in
      let h2 := <[payload := ODict (<["id" := PyInt seq1]> d)]> h1 in
      let h3 := <[items st := OList (deque_append (max_size st) q payload)]> h2 in
      Some (h3, {| max_size := max_size st; items := items st; seq := seq1 |},
            payload)
  | _, _ => None
  end.

(** [TraceStore.list]: [list(self._items)] is a new list object, and so
    is the slice [items[-limit:]]. *)
Definition list_ (h : gmap loc Obj) (st : TraceStore) (limit : Z)
    : option (gmap loc Obj * loc) :=
  match h !! items st with
  | Some (OList q) =>
      let '(h1, items_copy) := alloc h (OList q) in
      if 0 <? limit then
        Some (alloc h1 (OList (drop (length q - Z.to_nat limit)%nat q)))
      else Some (h1, items_copy)
  | _ => None
  end.

(** Successive [add] calls, collecting the payloads they return. *)
Fixpoint add_all (h : gmap loc Obj) (st : TraceStore) (events : list loc)
    : option (gmap loc Obj * TraceStore * list loc) :=
  match events with
  | [] => Some (h, st, [])
  | event :: rest =>
      match add h st event with
      | Some (h1, st1, payload) =>
          match add_all h1 st1 rest with
          | Some (h2, st2, payloads) => Some (h2, st2, payload :: payloads)
          | None => None
          end
      | None => None
      end
  end.

(** [payload["id"]] read through a reference. *)
Definition id_of (h : gmap loc Obj) (l : loc) : option PyVal :=
  match h !! l with
  | Some (ODict d) => d !! "id"
  | _ => None
  end.

(** The buffered events, oldest first. *)
Definition buffer (h : gmap loc Obj) (st : TraceStore) : option (list loc) :=
  match h !! items st with
  | Some (OList q) => Some q
  | _ => None
  end.

(** The invariant of a [TraceStore]: the capacity is at least 1 and the
    deque is in the store, within capacity. *)
Definition valid (h : gmap loc Obj) (st : TraceStore) : Prop :=
  1 ≤ max_size st
  ∧ ∃ q, buffer h st = Some q ∧ Z.of_nat (length q) ≤ max_size st.

(** The references of [events] are dicts in the store. *)
Definition events_in (h : gmap loc Obj) (events : list loc) : Prop :=
  Forall (λ event, ∃ d, h !! event = Some (ODict d)) events.

End Trace.

(** ** proxy/rules.py *)

Module Rules.

Definition CHATGPT_HOSTS : gset string :=
  {[ "chatgpt.com"; "chat.openai.com" ]}.

Definition PATH_REWRITE_PATTERNS : list (string * string) :=
  [ ("/v1/responses/compact", "/codex/responses/compact");
    ("/responses/compact", "/codex/responses/compact");
    ("/v1/responses", "/codex/responses");
    ("/responses", "/codex/responses") ].

(** [str.lower] on the letters A-Z; other characters are kept. *)
Definition lower_char (c : Ascii.ascii) : Ascii.ascii :=
  let n := Ascii.N_of_ascii c in
  if ((65 <=? n) && (n <=? 90))%N then Ascii.ascii_of_N (n + 32) else c.

Fixpoint lower (s : string) : string :=
  match s with
  | EmptyString => EmptyString
  | String c rest => String (lower_char c) (lower rest)
  end.

(** [s.rstrip("/")]. *)
Fixpoint rstrip_slash (s : string) : string :=
  match s with
  | EmptyString => EmptyString
  | String c rest =>
      match rstrip_slash rest with
      | EmptyString => if Ascii.eqb c "/"%char then EmptyString else String c EmptyString
      | stripped => String c stripped
      end
  end.

(** [s.startswith(prefix)]. *)
Fixpoint startswith (s prefix : string) {struct prefix} : bool :=
  match prefix, s with
  | EmptyString, _ => true
  | String p prefix', String c s' => Ascii.eqb c p && startswith s' prefix'
  | String _ _, EmptyString => false
  end.

(** [s[n:]]. *)
Fixpoint drop_chars (n : nat) (s : string) : string :=
  match n, s with
  | O, _ => s
  | S n', String _ s' => drop_chars n' s'
  | S _, EmptyString => EmptyString
  end.

(** The [for old_prefix, new_prefix in ...] loop: the first pattern whose
    prefix matches decides; the path is returned as it is when none does. *)
Fixpoint rewrite_with (patterns : list (string * string)) (req_path : string)
    : string :=
  match patterns with
  | [] => req_path
  | (old_prefix, new_prefix) :: rest =>
      if startswith req_path old_prefix then
        let suffix := drop_chars (String.length old_prefix) req_path in
        new_prefix +:+ suffix
      else rewrite_with rest req_path
  end.

(** [rewrite_request_path]. *)
Definition rewrite_request_path (req_path : string)
    (upstream_host : option string) (upstream_base_path : string) : string :=
  let host := lower (default EmptyString upstream_host) in
  if decide (host ∈ CHATGPT_HOSTS) then
    if decide (rstrip_slash upstream_base_path = "/backend-api") then
      rewrite_with PATH_REWRITE_PATTERNS req_path
    else req_path
  else req_path.

(** [s.split("?", 1)[0]]: the characters before the first question mark. *)
Fixpoint before_query (s : string) : string :=
  match s with
  | EmptyString => EmptyString
  | String c rest =>
      if Ascii.eqb c "?"%char then EmptyString else String c (before_query rest)
  end.

(** [s.endswith(suffix)]. *)
Fixpoint endswith (s suffix : string) : bool :=
  String.eqb s suffix
  || match s with
     | EmptyString => false
     | String _ rest => endswith rest suffix
     end.

(** [sub in s]. *)
Fixpoint contains (s sub : string) : bool :=
  startswith s sub
  || match s with
     | EmptyString => false
     | String _ rest => contains rest sub
     end.

(** [trace_route]. *)
Definition trace_route (path : string) : string :=
  let path_only := before_query path in
  if endswith path_only "/compact" then "compact"
  else if contains path_only "/responses" then "request"
  else "other".

(** [is_primary_responses_path]. *)
Definition is_primary_responses_path (req_path : string) : bool :=
  String.eqb (before_query req_path) "/codex/responses".

(** A [Dict[str, str]] of headers: the entries in insertion order.
    [headers[key] = value] overwrites in place or appends;
    [headers.pop(key, None)] removes the entry of the key. *)
Fixpoint dict_set (key value : string) (headers : list (string * string))
    : list (string * string) :=
  match headers with
  | [] => [(key, value)]
  | (existing, v) :: rest =>
      if String.eqb existing key then (existing, value) :: rest
      else (existing, v) :: dict_set key value rest
  end.

Fixpoint dict_pop (key : string) (headers : list (string * string))
    : list (string * string) :=
  match headers with
  | [] => []
  | (existing, v) :: rest =>
      if String.eqb existing key then rest
      else (existing, v) :: dict_pop key rest
  end.

(** [drop_header_case_insensitive]: the first key that equals [key] up to
    case is popped, and the loop returns. *)
Definition drop_header_case_insensitive (headers : list (string * string))
    (key : string) : list (string * string) :=
  match List.find (λ existing, String.eqb (lower existing) (lower key))
          (headers.*1) with
  | Some existing => dict_pop existing headers
  | None => headers
  end.

(** [set_header_case_insensitive]. *)
Definition set_header_case_insensitive (headers : list (string * string))
    (key value : string) : list (string * string) :=
  dict_set key value (drop_header_case_insensitive headers key).

Definition CHATGPT_RESPONSES_DROP_HEADERS : gset string :=
  {[ "originator"; "version"; "x-codex-beta-features";
     "x-oai-web-search-eligible"; "x-codex-turn-metadata"; "session_id";
     "chatgpt-account-id" ]}.

(** The set literal of the first test in [build_forward_headers]. *)
Definition HOP_HEADERS : gset string :=
  {[ "host"; "content-length"; "connection"; "transfer-encoding" ]}.

Definition allowed_chatgpt_headers : gset string :=
  {[ "accept"; "content-type"; "content-encoding"; "user-agent" ]}.

(** Whether the loop of [build_forward_headers] reaches
    [headers[key] = value] for this key. *)
Definition forwarded (chatgpt_responses_mode : bool) (key : string) : bool :=
  let normalized := lower key in
  if bool_decide (normalized ∈ HOP_HEADERS) then false
  else if chatgpt_responses_mode
            && (bool_decide (normalized ∈ CHATGPT_RESPONSES_DROP_HEADERS)
                || contains key "_") then false
  else if chatgpt_responses_mode then
    bool_decide (normalized ∈ allowed_chatgpt_headers)
    || startswith normalized "x-openai-"
    || startswith normalized "openai-"
  else true.

(** [build_forward_headers]. *)
Definition build_forward_headers (incoming_headers : list (string * string))
    (chatgpt_responses_mode : bool) : list (string * string) :=
  foldl (λ headers kv,
           if forwarded chatgpt_responses_mode kv.1
           then dict_set kv.1 kv.2 headers else headers)
    [] incoming_headers.

End Rules.

(** ** Scenarios: call sequences and the concrete pools used below *)

Module Scenario.
Import Models Rotation.

(** One [mark_result] call: its arguments and the clock reading. *)
Record Call := mkCall {
  call_status : Z;
  call_error_code : option string;
  call_cooldown_seconds : option Z;
  call_now : Z;
}.

Definition mark_call (auth_name : string) (p : Pool) (c : Call) : Pool :=
  mark_result p auth_name (call_status c) (call_error_code c)
    (call_cooldown_seconds c) (call_now c).

(** What one call does to the state it reaches. *)
Definition mark_call_state (s : AuthState) (c : Call) : AuthState :=
  mark_result_state (call_status c) (call_error_code c)
    (call_cooldown_seconds c) (call_now c) s.

(** Successive [mark_result] calls for one name. *)
Definition mark_results (p : Pool) (auth_name : string) (calls : list Call)
    : Pool :=
  foldl (mark_call auth_name) p calls.

Definition ok_at (now : Z) : Call := mkCall 200 None None now.
Definition rate_limited_at (now : Z) : Call := mkCall 429 None None now.
Definition unauthorized_at (now : Z) : Call := mkCall 401 None None now.

Definition rec_a : AuthRecord :=
  mkAuthRecord "a.json" "/tmp/a.json" "tok-a" (Some "a@example.com") None.
Definition rec_a_new : AuthRecord :=
  mkAuthRecord "a.json" "/tmp/a.json" "tok-new" (Some "a@example.com") None.
Definition rec_b : AuthRecord :=
  mkAuthRecord "b.json" "/tmp/b.json" "tok-b" (Some "b@example.com") None.

(** [pool.load([a, b])] on a new pool. *)
Definition pool_ab : Pool := load empty_pool [rec_a; rec_b].

(** [a.json] after four 429 answers at t = 1000. *)
Definition pool_four_strikes : Pool :=
  mark_results pool_ab "a.json" (replicate 4 (rate_limited_at 1000)).

(** [a.json] after five 401 answers at t = 1000. *)
Definition pool_five_failures : Pool :=
  mark_results pool_ab "a.json" (replicate 5 (unauthorized_at 1000)).

(** [a.json] after one 401 answer at t = 1000. *)
Definition pool_blacklisted : Pool :=
  mark_results pool_ab "a.json" [unauthorized_at 1000].

(** A state that has left probation with its penalties cleared. *)
Definition recovered (s : AuthState) : Prop :=
  probation_target s ≤ probation_successes s
  ∧ blacklist_until s = 0 ∧ blacklist_reason s = None
  ∧ next_probe_after s = 0 ∧ cooldown_until s = 0.

End Scenario.

(** ** What the pool keeps true *)

Module Invariant.
Import Models Rotation.

(** Facts about one state that every transition of the pool preserves. *)
Definition state_ok (s : AuthState) : Prop :=
  probation_target s = 2
  ∧ 0 ≤ probation_successes s ≤ 2
  ∧ 0 ≤ used s
  ∧ 0 ≤ rate_limit_strikes s ≤ errors s
  ∧ 0 ≤ hard_failures s ≤ errors s
  ∧ (probation_target s ≤ probation_successes s →
     blacklist_until s = 0 ∧ next_probe_after s = 0)
  ∧ (probation_successes s < probation_target s →
     is_Some (blacklist_reason s)
     ∧ 0 < hard_failures s
     ∧ blacklist_until s ≤ next_probe_after s).

Definition pool_ok (p : Pool) : Prop :=
  Forall state_ok (states p)
  ∧ 0 ≤ index p
  ∧ (index p < Z.of_nat (length (states p)) ∨ index p = 0).

(** The pools a program can build: a new pool, then [load], [pick] and
    [mark_result] ([mark_cooldown] is a [mark_result]) with any
    arguments and clock readings. *)
Inductive reachable : Pool → Prop :=
  | reach_new : reachable empty_pool
  | reach_load p records : reachable p → reachable (load p records)
  | reach_pick p now : reachable p → reachable (pick p now).2
  | reach_mark_result p auth_name status error_code cooldown_seconds now :
      reachable p →
      reachable (mark_result p auth_name status error_code cooldown_seconds now).

(** Successive [pick] calls at the given clock readings. *)
Fixpoint picks (p : Pool) (nows : list Z) : list (option AuthState) * Pool :=
  match nows with
  | [] => ([], p)
  | now :: rest =>
      let '(picked, p1) := pick p now in
      let '(more, p2) := picks p1 rest in
      (picked :: more, p2)
  end.

(** A state that is selectable from [t] on and not in probation. *)
Definition healthy (t : Z) (s : AuthState) : Prop :=
  blacklist_until s ≤ t ∧ cooldown_until s ≤ t
  ∧ probation_target s ≤ probation_successes s.

End Invariant.

Module TraceScenario.
Import Trace.

(** Two event dicts of a caller, at references 5 and 6. *)
Definition caller_heap : gmap loc Obj :=
  <[6%positive := ODict {[ "status" := PyInt 401 ]}]>
    (<[5%positive := ODict {[ "status" := PyInt 200; "path" := PyStr "/responses" ]}]> ∅).

(** [TraceStore(max_size=2)] created next to them. *)
Definition store2 : gmap loc Obj * TraceStore := init caller_heap 2.

End TraceScenario.

(** * Properties of the rotation pool *)

Module RotationFacts.
Import Models Rotation Scenario.

(** No transition touches the record of the state it updates. *)
Lemma mark_success_record s now : record (mark_success s now) = record s.
Proof. unfold mark_success; simpl. repeat case_match; reflexivity. Qed.

Lemma mark_blacklist_record s now reason :
  record (mark_blacklist s now reason) = record s.
Proof. reflexivity. Qed.

Lemma mark_rate_limited_record s now o :
  record (mark_rate_limited s now o) = record s.
Proof. unfold mark_rate_limited. case_match; reflexivity. Qed.

Lemma mark_transient_failure_record s now :
  record (mark_transient_failure s now) = record s.
Proof. reflexivity. Qed.

Lemma mark_result_state_record status ec cs now s :
  record (mark_result_state status ec cs now s) = record s.
Proof.
  unfold mark_result_state.
  repeat case_match;
    auto using mark_success_record, mark_blacklist_record,
      mark_rate_limited_record, mark_transient_failure_record.
Qed.

(** [mark_first] rewrites exactly the state that [find_state] finds. *)
Lemma find_state_mark_first auth_name f sts :
  (∀ s, record (f s) = record s) →
  find_state auth_name (mark_first auth_name f sts)
  = f <$> find_state auth_name sts.
Proof.
  intros Hf. induction sts as [|s sts IH]; simpl; [reflexivity|].
  destruct (decide (name (record s) = auth_name)) as [Heq|Hne]; simpl.
  - rewrite Hf, decide_True by assumption. reflexivity.
  - rewrite decide_False by assumption. exact IH.
Qed.

Lemma find_state_mark_result p auth_name status ec cs now :
  find_state auth_name (states (mark_result p auth_name status ec cs now))
  = mark_result_state status ec cs now <$> find_state auth_name (states p).
Proof.
  unfold mark_result; simpl. apply find_state_mark_first.
  intros s. apply mark_result_state_record.
Qed.

Lemma mark_first_absent auth_name f sts :
  Forall (λ st, name (record st) ≠ auth_name) sts →
  mark_first auth_name f sts = sts.
Proof.
  induction 1 as [|s sts Hs _ IH]; simpl; [reflexivity|].
  rewrite decide_False by assumption. f_equal. exact IH.
Qed.

Lemma mark_first_length auth_name f sts :
  length (mark_first auth_name f sts) = length sts.
Proof.
  induction sts as [|s sts IH]; simpl; [reflexivity|].
  case_decide; simpl; congruence.
Qed.

Lemma find_state_mark_results p auth_name calls :
  find_state auth_name (states (mark_results p auth_name calls))
  = (λ s, foldl mark_call_state s calls) <$> find_state auth_name (states p).
Proof.
  unfold mark_results. revert p.
  induction calls as [|c calls IH]; intros p; simpl.
  - destruct (find_state auth_name (states p)); reflexivity.
  - rewrite IH. unfold mark_call. rewrite find_state_mark_result.
    destruct (find_state auth_name (states p)); reflexivity.
Qed.

(** *** Success in and after probation *)

Lemma recovered_status s now : recovered s → 0 ≤ now → status s now = "OK".
Proof.
  intros (Hp & Hb & _ & _ & Hc) Hnow. unfold status. rewrite Hb, Hc.
  destruct (Z.ltb_spec now 0); [lia|].
  destruct (Z.ltb_spec (probation_successes s) (probation_target s)); [lia|].
  reflexivity.
Qed.

Lemma in_probation_status s now :
  probation_successes s < probation_target s → status s now ≠ "OK".
Proof.
  intros Hp. unfold status.
  destruct (Z.ltb_spec (probation_successes s) (probation_target s)); [|lia].
  repeat case_match; discriminate.
Qed.

Lemma success_call_state s c :
  200 ≤ call_status c < 300 →
  mark_call_state s c = mark_success s (call_now c).
Proof.
  intros H. unfold mark_call_state, mark_result_state.
  destruct (Z.leb_spec 200 (call_status c)); [|lia].
  destruct (Z.ltb_spec (call_status c) 400); [|lia]. reflexivity.
Qed.

Lemma mark_success_recovered s now :
  recovered s →
  recovered (mark_success s now)
  ∧ probation_successes (mark_success s now) = probation_successes s
  ∧ probation_target (mark_success s now) = probation_target s.
Proof.
  intros (Hp & Hb & Hr & Hn & Hc). unfold mark_success, recovered; simpl.
  destruct (Z.ltb_spec (probation_successes s) (probation_target s)); [lia|].
  destruct (Z.leb_spec (blacklist_until s) now); simpl; auto 10.
Qed.

Lemma mark_success_probation s now :
  probation_successes s < probation_target s →
  probation_successes (mark_success s now) = probation_successes s + 1
  ∧ probation_target (mark_success s now) = probation_target s
  ∧ (probation_successes s + 1 = probation_target s →
     recovered (mark_success s now)).
Proof.
  intros Hp. unfold mark_success, recovered; simpl.
  destruct (Z.ltb_spec (probation_successes s) (probation_target s)); [|lia].
  destruct (Z.leb_spec (probation_target s) (probation_successes s + 1));
    simpl; repeat split; try reflexivity; intros; lia.
Qed.

Lemma successes_recovered calls : ∀ s,
  Forall (λ c, 200 ≤ call_status c < 300) calls →
  recovered s →
  recovered (foldl mark_call_state s calls)
  ∧ probation_successes (foldl mark_call_state s calls) = probation_successes s
  ∧ probation_target (foldl mark_call_state s calls) = probation_target s.
Proof.
  induction calls as [|c calls IH]; intros s Hall Hrec; simpl; [auto|].
  inversion Hall as [|? ? Hc Hrest]; subst.
  rewrite (success_call_state s c Hc).
  destruct (mark_success_recovered s (call_now c) Hrec) as (Hrec' & Hp & Ht).
  destruct (IH _ Hrest Hrec') as (? & ? & ?).
  split; [assumption | split; congruence].
Qed.

(** [k] successes starting in probation: the counter climbs by one per
    call until it meets the target, and from then on the state is
    recovered. *)
Lemma successes_in_probation calls : ∀ s,
  Forall (λ c, 200 ≤ call_status c < 300) calls →
  probation_successes s < probation_target s →
  let s' := foldl mark_call_state s calls in
  let k := Z.of_nat (length calls) in
  probation_target s' = probation_target s
  ∧ (probation_successes s + k < probation_target s →
     probation_successes s' = probation_successes s + k)
  ∧ (probation_target s ≤ probation_successes s + k →
     probation_successes s' = probation_target s ∧ recovered s').
Proof.
  induction calls as [|c calls IH]; intros s Hall Hp; simpl.
  - repeat split; intros; lia.
  - inversion Hall as [|? ? Hc Hrest]; subst.
    rewrite (success_call_state s c Hc).
    destruct (mark_success_probation s (call_now c) Hp) as (Hs1 & Ht1 & Hr1).
    destruct (Z.lt_ge_cases (probation_successes s + 1) (probation_target s))
      as [Hlt|Hge].
    + destruct (IH (mark_success s (call_now c)) Hrest) as (Ht & Hlow & Hhigh).
      { rewrite Hs1, Ht1. exact Hlt. }
      rewrite Ht1, Hs1 in *.
      split; [assumption|].
      split; [intros; rewrite Hlow; lia | intros; apply Hhigh; lia].
    + assert (Heq : probation_successes s + 1 = probation_target s) by lia.
      destruct (successes_recovered calls _ Hrest (Hr1 Heq)) as (? & ? & ?).
      split; [congruence|].
      split; [intros; lia | intros; split; [congruence | assumption]].
Qed.

(** *** The two backoff tables *)

Lemma rate_limit_cooldown_seconds_formula n :
  1 ≤ n →
  rate_limit_cooldown_seconds n = Z.min 900 (30 * 2 ^ Z.min (n - 1) 6).
Proof.
  intros Hn. unfold rate_limit_cooldown_seconds, MAX_COOLDOWN_SECONDS,
    DEFAULT_COOLDOWN_SECONDS.
  rewrite (Z.max_l (n - 1) 0) by lia. reflexivity.
Qed.

Lemma rate_limit_cooldown_seconds_bounds n :
  30 ≤ rate_limit_cooldown_seconds n ≤ 900.
Proof.
  unfold rate_limit_cooldown_seconds, MAX_COOLDOWN_SECONDS,
    DEFAULT_COOLDOWN_SECONDS.
  set (power := Z.min (Z.max (n - 1) 0) 6).
  assert (Hp : 0 ≤ power ≤ 6) by (subst power; lia).
  assert (Hpow : 1 ≤ 2 ^ power) by (apply Z.pow_le_mono_r with (b := 0); lia).
  lia.
Qed.

Lemma blacklist_ttl_formula n :
  1 ≤ n →
  blacklist_ttl n = Z.min 21600 (900 * 2 ^ Z.min (n - 1) 4).
Proof.
  intros Hn. unfold blacklist_ttl, MAX_BLACKLIST_SECONDS,
    DEFAULT_BLACKLIST_SECONDS.
  rewrite (Z.max_l (n - 1) 0) by lia. reflexivity.
Qed.

Lemma blacklist_ttl_bounds n : 900 ≤ blacklist_ttl n ≤ 14400.
Proof.
  unfold blacklist_ttl, MAX_BLACKLIST_SECONDS, DEFAULT_BLACKLIST_SECONDS.
  set (power := Z.min (Z.max (n - 1) 0) 4).
  assert (Hp : 0 ≤ power ≤ 4) by (subst power; lia).
  assert (Hlo : 2 ^ 0 ≤ 2 ^ power) by (apply Z.pow_le_mono_r; lia).
  assert (Hhi : 2 ^ power ≤ 2 ^ 4) by (apply Z.pow_le_mono_r; lia).
  change (2 ^ 0) with 1 in Hlo. change (2 ^ 4) with 16 in Hhi. lia.
Qed.

(** [_mark_blacklist], field by field. *)
Lemma mark_blacklist_fields s now reason :
  let s' := mark_blacklist s now reason in
  errors s' = errors s + 1
  ∧ hard_failures s' = hard_failures s + 1
  ∧ blacklist_until s'
    = Z.max (blacklist_until s) (now + blacklist_ttl (hard_failures s + 1))
  ∧ blacklist_reason s' = Some reason
  ∧ probation_target s' = 2
  ∧ probation_successes s' = 0
  ∧ next_probe_after s' = blacklist_until s'
  ∧ cooldown_until s' = Z.max (cooldown_until s) (blacklist_until s')
  ∧ rate_limit_strikes s' = rate_limit_strikes s
  ∧ used s' = used s.
Proof.
  unfold mark_blacklist; simpl.
  pose proof (blacklist_ttl_bounds (hard_failures s + 1)).
  rewrite (Z.max_r 1 (blacklist_ttl (hard_failures s + 1))) by lia.
  repeat split; reflexivity.
Qed.

(** The first half of [_mark_rate_limited], field by field. *)
Lemma rate_limited_cooldown_fields s now :
  let s' := rate_limited_cooldown s now None in
  errors s' = errors s + 1
  ∧ rate_limit_strikes s' = rate_limit_strikes s + 1
  ∧ cooldown_until s'
    = Z.max (cooldown_until s)
        (now + rate_limit_cooldown_seconds (rate_limit_strikes s + 1))
  ∧ blacklist_until s' = blacklist_until s
  ∧ hard_failures s' = hard_failures s.
Proof.
  unfold rate_limited_cooldown; simpl.
  pose proof (rate_limit_cooldown_seconds_bounds (rate_limit_strikes s + 1)).
  rewrite (Z.max_r 1 (rate_limit_cooldown_seconds (rate_limit_strikes s + 1)))
    by lia.
  repeat split; reflexivity.
Qed.

Lemma rate_limited_call_state s ec cs now :
  mark_result_state 429 ec cs now s = mark_rate_limited s now (Z.max 1 <$> cs).
Proof. reflexivity. Qed.

Lemma hard_failure_call_state status ec cs now s :
  status = 401 ∨ status = 403 →
  mark_result_state status ec cs now s
  = mark_blacklist s now
      (or_default ec (if status =? 401 then "token_invalid" else "forbidden")).
Proof. intros [-> | ->]; reflexivity. Qed.

(** *** [load] and the lookup by name *)

Lemma previous_snoc sts s :
  previous (sts ++ [s]) = <[name (record s) := s]> (previous sts).
Proof. unfold previous. rewrite foldl_app. reflexivity. Qed.

(** The dict built by [load] maps a name to the last state carrying it. *)
Lemma previous_lookup sts auth_name :
  previous sts !! auth_name = find_state auth_name (reverse sts).
Proof.
  induction sts as [|s sts IH] using rev_ind.
  - reflexivity.
  - rewrite previous_snoc, reverse_snoc. simpl.
    destruct (decide (name (record s) = auth_name)) as [Heq|Hne].
    + rewrite Heq. apply lookup_insert_eq.
    + rewrite lookup_insert_ne by assumption. exact IH.
Qed.

Lemma load_lookup p records i :
  states (load p records) !! i
  = load_state (previous (states p)) <$> records !! i.
Proof. unfold load; simpl. apply list_lookup_fmap. Qed.

(** [_mark_rate_limited] with an override, field by field. *)
Lemma mark_rate_limited_override_fields s now seconds :
  let s' := mark_rate_limited s now (Some (Z.max 1 seconds)) in
  rate_limit_strikes s' = rate_limit_strikes s + 1
  ∧ (rate_limit_strikes s + 1 < 5 →
     errors s' = errors s + 1
     ∧ cooldown_until s' = Z.max (cooldown_until s) (now + Z.max 1 seconds)
     ∧ blacklist_until s' = blacklist_until s
     ∧ blacklist_reason s' = blacklist_reason s
     ∧ hard_failures s' = hard_failures s)
  ∧ (5 ≤ rate_limit_strikes s + 1 →
     errors s' = errors s + 2
     ∧ blacklist_reason s' = Some "rate_limited_persistent"
     ∧ hard_failures s' = hard_failures s + 1
     ∧ blacklist_until s'
       = Z.max (blacklist_until s) (now + blacklist_ttl (hard_failures s + 1))
     ∧ probation_successes s' = 0
     ∧ probation_target s' = 2).
Proof.
  unfold mark_rate_limited.
  set (s1 := rate_limited_cooldown s now (Some (Z.max 1 seconds))).
  assert (Hk : rate_limit_strikes s1 = rate_limit_strikes s + 1) by reflexivity.
  assert (He : errors s1 = errors s + 1) by reflexivity.
  assert (Hcu : cooldown_until s1
                = Z.max (cooldown_until s) (now + Z.max 1 seconds)).
  { subst s1. unfold rate_limited_cooldown; simpl. f_equal. lia. }
  assert (Hbu : blacklist_until s1 = blacklist_until s) by reflexivity.
  assert (Hbr : blacklist_reason s1 = blacklist_reason s) by reflexivity.
  assert (Hhf : hard_failures s1 = hard_failures s) by reflexivity.
  destruct (Z.leb_spec 5 (rate_limit_strikes s1)) as [Hge|Hlt].
  - destruct (mark_blacklist_fields s1 now "rate_limited_persistent")
      as (He' & Hhf' & Hbu' & Hbr' & Hpt & Hps & _ & _ & Hk' & _).
    cbv zeta in *.
    split; [congruence|]. split; [intros; lia|]. intros _.
    rewrite He', Hhf', Hbu', Hbr', Hpt, Hps, He, Hhf, Hbu.
    repeat split; lia.
  - split; [exact Hk|]. split; [|intros; lia]. intros _.
    rewrite He, Hcu, Hbu, Hbr, Hhf. repeat split; reflexivity.
Qed.

End RotationFacts.

Module RotationSpec.
Import Models Rotation Scenario RotationFacts.

(** C1.  A state is available at time [t] exactly when [t] has reached
    [blacklist_until] and [cooldown_until] and, in addition, either the
    probation target is met or [t] has reached [next_probe_after]. *)
Theorem available_iff (s : AuthState) (t : Z) :
  available s t = true ↔
  blacklist_until s ≤ t
  ∧ cooldown_until s ≤ t
  ∧ (probation_target s ≤ probation_successes s ∨ next_probe_after s ≤ t).
Proof.
  unfold available.
  destruct (Z.ltb_spec t (blacklist_until s));
    destruct (Z.ltb_spec t (cooldown_until s));
    destruct (Z.ltb_spec (probation_successes s) (probation_target s));
    destruct (Z.ltb_spec t (next_probe_after s)); simpl;
    split; try discriminate; try lia; intros; reflexivity.
Qed.

(** C2.  A state in probation that receives [probation_target]
    successive 2xx results is back to OK: its blacklist timer, blacklist
    reason and probe timer are cleared and [status] answers ["OK"].
    Along the way, while the counter is still below the target the state
    is not OK, and the call that makes the counter meet the target is the
    one that clears the three fields. *)
Theorem probation_recovery (p : Pool) (auth_name : string) (s : AuthState)
    (calls : list Call) (now : Z) :
  find_state auth_name (states p) = Some s →
  0 ≤ probation_successes s < probation_target s →
  Forall (λ c, 200 ≤ call_status c < 300) calls →
  Z.of_nat (length calls) = probation_target s →
  0 ≤ now →
  (∃ s', find_state auth_name (states (mark_results p auth_name calls)) = Some s'
         ∧ probation_successes s' = probation_target s'
         ∧ blacklist_until s' = 0
         ∧ blacklist_reason s' = None
         ∧ next_probe_after s' = 0
         ∧ status s' now = "OK")
  ∧ (∀ k : nat, (k ≤ length calls)%nat →
       ∃ sk, find_state auth_name
               (states (mark_results p auth_name (take k calls))) = Some sk
             ∧ (probation_successes s + Z.of_nat k < probation_target s →
                probation_successes sk = probation_successes s + Z.of_nat k
                ∧ status sk now ≠ "OK")
             ∧ (probation_successes s + Z.of_nat k = probation_target s →
                probation_successes sk = probation_target sk
                ∧ blacklist_until sk = 0
                ∧ blacklist_reason sk = None
                ∧ next_probe_after sk = 0
                ∧ status sk now = "OK")).
Proof.
  intros Hfind Hps Hall Hlen Hnow. split.
  - rewrite find_state_mark_results, Hfind. simpl. eexists. split; [reflexivity|].
    destruct (successes_in_probation calls s Hall (proj2 Hps)) as (Ht & _ & Hhigh).
    destruct Hhigh as (Hp & Hrec); [lia|].
    pose proof (recovered_status _ now Hrec Hnow) as Hst.
    destruct Hrec as (_ & Hb & Hr & Hn & _). repeat split; congruence.
  - intros k Hk. rewrite find_state_mark_results, Hfind. simpl.
    eexists. split; [reflexivity|].
    assert (Hall' : Forall (λ c, 200 ≤ call_status c < 300) (take k calls))
      by (apply Forall_take; assumption).
    destruct (successes_in_probation (take k calls) s Hall' (proj2 Hps))
      as (Ht & Hlow & Hhigh).
    rewrite length_take, Nat.min_l in Hlow, Hhigh by assumption.
    split.
    + intros Hlt. split; [apply Hlow; assumption|].
      apply in_probation_status. rewrite Hlow, Ht; assumption.
    + intros Heq. destruct Hhigh as (Hp & Hrec); [lia|].
      pose proof (recovered_status _ now Hrec Hnow) as Hst.
      destruct Hrec as (_ & Hb & Hr & Hn & _). repeat split; congruence.
Qed.

Lemma probation_recovery_witness :
  ∃ s', find_state "a.json"
          (states (mark_results pool_blacklisted "a.json"
                     [ok_at 2000; ok_at 2021])) = Some s'
        ∧ probation_successes s' = probation_target s'
        ∧ blacklist_until s' = 0
        ∧ blacklist_reason s' = None
        ∧ next_probe_after s' = 0
        ∧ status s' 2021 = "OK".
Proof.
  apply (probation_recovery pool_blacklisted "a.json"
           (mark_blacklist (fresh_state rec_a) 1000 "token_invalid")
           [ok_at 2000; ok_at 2021] 2021).
  - vm_compute. reflexivity.
  - vm_compute. split; [discriminate | reflexivity].
  - repeat constructor; vm_compute; discriminate.
  - vm_compute. reflexivity.
  - lia.
Defined.

(** C3 as stated fails from the fifth strike on: the state of [a.json]
    after four 429 answers has [cooldown_until = 1240]; a fifth 429 at
    t = 1000 computes a cooldown of 480 s, so the maximum of the current
    value and [now + cooldown] is 1480, but the call leaves
    [cooldown_until] at 1900, the end of the blacklist it also starts. *)
Lemma rate_limited_cooldown_until_counterexample :
  let before := find_state "a.json" (states pool_four_strikes) in
  let after :=
    find_state "a.json"
      (states (mark_result pool_four_strikes "a.json" 429 None None 1000)) in
  cooldown_until <$> before = Some 1240
  ∧ rate_limit_strikes <$> after = Some 5
  ∧ rate_limit_cooldown_seconds 5 = 480
  ∧ (λ s, Z.max (cooldown_until s) (1000 + rate_limit_cooldown_seconds 5))
      <$> before = Some 1480
  ∧ cooldown_until <$> after = Some 1900.
Proof.
  split; [vm_compute; reflexivity|].
  split; [vm_compute; reflexivity|].
  split; [vm_compute; reflexivity|].
  split; vm_compute; reflexivity.
Qed.

(** C3 (amended).  On [mark_result] with status 429 and no
    [cooldown_seconds], the cooldown computed for strikes 1..7 (after the
    increment) is 30, 60, 120, 240, 480, 900, 900 seconds, that is
    [min 900 (30 * 2 ^ min (strikes - 1) 6)], and the assignment in
    [_mark_rate_limited] sets [cooldown_until] to the maximum of its
    current value and [now + cooldown].  That is its value after the call
    while the incremented strike count is below 5; from the fifth strike
    on, the blacklist transition that follows raises it further, to the
    maximum of that value and the new [blacklist_until]. *)
Theorem rate_limited_cooldown_extends (p : Pool) (auth_name : string)
    (s : AuthState) (error_code : option string) (now : Z) :
  find_state auth_name (states p) = Some s →
  rate_limit_cooldown_seconds <$> [1; 2; 3; 4; 5; 6; 7]
  = [30; 60; 120; 240; 480; 900; 900]
  ∧ (∀ n, 1 ≤ n →
       rate_limit_cooldown_seconds n = Z.min 900 (30 * 2 ^ Z.min (n - 1) 6))
  ∧ cooldown_until (rate_limited_cooldown s now None)
    = Z.max (cooldown_until s)
        (now + rate_limit_cooldown_seconds (rate_limit_strikes s + 1))
  ∧ ∃ s',
      find_state auth_name
        (states (mark_result p auth_name 429 error_code None now)) = Some s'
      ∧ rate_limit_strikes s' = rate_limit_strikes s + 1
      ∧ (rate_limit_strikes s' < 5 →
         cooldown_until s'
         = Z.max (cooldown_until s)
             (now + rate_limit_cooldown_seconds (rate_limit_strikes s')))
      ∧ (5 ≤ rate_limit_strikes s' →
         blacklist_until s'
         = Z.max (blacklist_until s)
             (now + blacklist_ttl (hard_failures s + 1))
         ∧ cooldown_until s'
           = Z.max
               (Z.max (cooldown_until s)
                  (now + rate_limit_cooldown_seconds (rate_limit_strikes s')))
               (blacklist_until s')).
Proof.
  intros Hfind.
  destruct (rate_limited_cooldown_fields s now) as (_ & Hk & Hcu & Hbu & Hhf).
  split; [reflexivity|].
  split; [exact rate_limit_cooldown_seconds_formula|].
  split; [exact Hcu|].
  rewrite find_state_mark_result, Hfind. simpl.
  eexists. split; [reflexivity|].
  rewrite rate_limited_call_state. unfold mark_rate_limited. simpl fmap.
  destruct (Z.leb_spec 5 (rate_limit_strikes (rate_limited_cooldown s now None)))
    as [Hge|Hlt].
  - destruct (mark_blacklist_fields (rate_limited_cooldown s now None) now
                "rate_limited_persistent")
      as (_ & _ & Hbu' & _ & _ & _ & _ & Hcu' & Hk' & _).
    split; [congruence|]. split; [intros; lia|]. intros _.
    rewrite Hcu', Hbu', Hk', Hk, Hcu, Hbu, Hhf. split; reflexivity.
  - split; [exact Hk|]. split; [|intros; lia]. intros _.
    rewrite Hk. exact Hcu.
Qed.

Lemma rate_limited_cooldown_extends_witness :
  ∃ s',
    find_state "a.json"
      (states (mark_result pool_ab "a.json" 429 None None 1000)) = Some s'
    ∧ rate_limit_strikes s' = rate_limit_strikes (fresh_state rec_a) + 1
    ∧ (rate_limit_strikes s' < 5 →
       cooldown_until s'
       = Z.max (cooldown_until (fresh_state rec_a))
           (1000 + rate_limit_cooldown_seconds (rate_limit_strikes s')))
    ∧ (5 ≤ rate_limit_strikes s' →
       blacklist_until s'
       = Z.max (blacklist_until (fresh_state rec_a))
           (1000 + blacklist_ttl (hard_failures (fresh_state rec_a) + 1))
       ∧ cooldown_until s'
         = Z.max
             (Z.max (cooldown_until (fresh_state rec_a))
                (1000 + rate_limit_cooldown_seconds (rate_limit_strikes s')))
             (blacklist_until s')).
Proof.
  apply (rate_limited_cooldown_extends pool_ab "a.json" (fresh_state rec_a)
           None 1000).
  vm_compute. reflexivity.
Defined.

(** C4 as stated fails at the sixth hard failure: the state of [a.json]
    after five 401 answers has [blacklist_until = 15400]; a sixth 401 at
    t = 20000 computes a ttl of 14400 s, not 21600 s, and leaves
    [blacklist_until] at 34400, not at 41600. *)
Lemma blacklist_ttl_sixth_counterexample :
  let before := find_state "a.json" (states pool_five_failures) in
  let after :=
    find_state "a.json"
      (states (mark_result pool_five_failures "a.json" 401 None None 20000)) in
  blacklist_until <$> before = Some 15400
  ∧ hard_failures <$> after = Some 6
  ∧ blacklist_ttl 6 = 14400
  ∧ blacklist_until <$> after = Some 34400
  ∧ (λ s, Z.max (blacklist_until s) (20000 + 21600)) <$> before = Some 41600.
Proof.
  split; [vm_compute; reflexivity|].
  split; [vm_compute; reflexivity|].
  split; [vm_compute; reflexivity|].
  split; vm_compute; reflexivity.
Qed.

(** C4 (amended).  On each hard-blacklist transition the ttl for
    [hard_failures] 1..6 (after the increment) is 900, 1800, 3600, 7200,
    14400, 14400 seconds, that is
    [min 21600 (900 * 2 ^ min (hard_failures - 1) 4)]; it never exceeds
    14400, so the six-hour cap is not reached; and [blacklist_until] is
    extended to the maximum of its current value and [now + ttl].  This
    holds for [_mark_blacklist] itself and so for [mark_result] with
    status 401 or 403. *)
Theorem blacklist_ttl_extends (p : Pool) (auth_name : string) (s : AuthState)
    (status : Z) (error_code : option string) (cooldown_seconds : option Z)
    (now : Z) :
  find_state auth_name (states p) = Some s →
  status = 401 ∨ status = 403 →
  blacklist_ttl <$> [1; 2; 3; 4; 5; 6] = [900; 1800; 3600; 7200; 14400; 14400]
  ∧ (∀ n, 1 ≤ n →
       blacklist_ttl n = Z.min 21600 (900 * 2 ^ Z.min (n - 1) 4))
  ∧ (∀ n, blacklist_ttl n ≤ 14400 < MAX_BLACKLIST_SECONDS)
  ∧ (∀ st t reason,
       hard_failures (mark_blacklist st t reason) = hard_failures st + 1
       ∧ blacklist_until (mark_blacklist st t reason)
         = Z.max (blacklist_until st)
             (t + blacklist_ttl (hard_failures st + 1)))
  ∧ ∃ s',
      find_state auth_name
        (states (mark_result p auth_name status error_code cooldown_seconds now))
      = Some s'
      ∧ hard_failures s' = hard_failures s + 1
      ∧ blacklist_until s'
        = Z.max (blacklist_until s) (now + blacklist_ttl (hard_failures s')).
Proof.
  intros Hfind Hstatus.
  split; [reflexivity|].
  split; [exact blacklist_ttl_formula|].
  split.
  { intros n. pose proof (blacklist_ttl_bounds n).
    unfold MAX_BLACKLIST_SECONDS. lia. }
  split.
  { intros st t reason.
    destruct (mark_blacklist_fields st t reason) as (_ & Hhf & Hbu & _).
    split; assumption. }
  rewrite find_state_mark_result, Hfind. simpl.
  eexists. split; [reflexivity|].
  rewrite (hard_failure_call_state _ _ _ _ _ Hstatus).
  match goal with
  | |- context [mark_blacklist s now ?r] =>
      destruct (mark_blacklist_fields s now r) as (_ & Hhf & Hbu & _)
  end.
  split; [exact Hhf|]. rewrite Hhf. exact Hbu.
Qed.

Lemma blacklist_ttl_extends_witness :
  ∃ s',
    find_state "a.json"
      (states (mark_result pool_ab "a.json" 401 (Some "token_expired") None 1000))
    = Some s'
    ∧ hard_failures s' = hard_failures (fresh_state rec_a) + 1
    ∧ blacklist_until s'
      = Z.max (blacklist_until (fresh_state rec_a))
          (1000 + blacklist_ttl (hard_failures s')).
Proof.
  apply (blacklist_ttl_extends pool_ab "a.json" (fresh_state rec_a) 401
           (Some "token_expired") None 1000).
  - vm_compute. reflexivity.
  - left. reflexivity.
Defined.

(** C5.  When [load] meets a record whose name is known to the pool but
    whose token differs from the one of the prior state, the new state
    takes [used] and [errors] from the prior state and nothing else: the
    three timers, the strikes and the hard failures are zero, there is no
    blacklist reason, probation is at successes = target = 2, and the
    state is available at once.  (The prior state of a name is the one
    the pool's dict by name holds, the last one carrying it.) *)
Theorem load_changed_token (p : Pool) (records : list AuthRecord) (i : nat)
    (r : AuthRecord) (prev : AuthState) (now : Z) :
  records !! i = Some r →
  previous (states p) !! name r = Some prev →
  token (record prev) ≠ token r →
  0 ≤ now →
  let s' :=
    {| record := r;
       cooldown_until := 0;
       blacklist_until := 0;
       blacklist_reason := None;
       probation_successes := 2;
       probation_target := 2;
       next_probe_after := 0;
       used := used prev;
       errors := errors prev;
       rate_limit_strikes := 0;
       hard_failures := 0 |} in
  states (load p records) !! i = Some s'
  ∧ available s' now = true
  ∧ status s' now = "OK".
Proof.
  intros Hrec Hprev Htok Hnow s'.
  split; [|split].
  - rewrite load_lookup, Hrec. simpl. unfold load_state. rewrite Hprev.
    apply String.eqb_neq in Htok. rewrite Htok. reflexivity.
  - unfold available; simpl. destruct (Z.ltb_spec now 0); [lia|]. reflexivity.
  - unfold status; simpl. destruct (Z.ltb_spec now 0); [lia|]. reflexivity.
Qed.

Lemma load_changed_token_witness :
  let s' :=
    {| record := rec_a_new;
       cooldown_until := 0;
       blacklist_until := 0;
       blacklist_reason := None;
       probation_successes := 2;
       probation_target := 2;
       next_probe_after := 0;
       used := used (mark_blacklist (fresh_state rec_a) 1000 "token_invalid");
       errors := errors (mark_blacklist (fresh_state rec_a) 1000 "token_invalid");
       rate_limit_strikes := 0;
       hard_failures := 0 |} in
  states (load pool_blacklisted [rec_a_new]) !! 0%nat = Some s'
  ∧ available s' 1000 = true
  ∧ status s' 1000 = "OK".
Proof.
  apply (load_changed_token pool_blacklisted [rec_a_new] 0 rec_a_new
           (mark_blacklist (fresh_state rec_a) 1000 "token_invalid") 1000).
  - reflexivity.
  - vm_compute. reflexivity.
  - vm_compute. discriminate.
  - lia.
Defined.

(** C8.  [mark_cooldown name seconds] leaves the pool exactly as
    [mark_result name 429] with [cooldown_seconds = seconds] does.  On a
    loaded token each call adds one to [rate_limit_strikes] and raises
    [errors]; below the fifth strike that is all besides the cooldown;
    from the fifth strike on the token is hard-blacklisted as well, with
    reason [rate_limited_persistent]. *)
Theorem mark_cooldown_as_mark_result (p : Pool) (auth_name : string)
    (seconds now : Z) (s : AuthState) :
  find_state auth_name (states p) = Some s →
  mark_cooldown p auth_name seconds now
  = mark_result p auth_name 429 None (Some seconds) now
  ∧ ∃ s',
      find_state auth_name (states (mark_cooldown p auth_name seconds now))
      = Some s'
      ∧ rate_limit_strikes s' = rate_limit_strikes s + 1
      ∧ errors s < errors s'
      ∧ (rate_limit_strikes s' < 5 →
         errors s' = errors s + 1
         ∧ cooldown_until s' = Z.max (cooldown_until s) (now + Z.max 1 seconds)
         ∧ blacklist_until s' = blacklist_until s
         ∧ blacklist_reason s' = blacklist_reason s
         ∧ hard_failures s' = hard_failures s)
      ∧ (5 ≤ rate_limit_strikes s' →
         errors s' = errors s + 2
         ∧ blacklist_reason s' = Some "rate_limited_persistent"
         ∧ hard_failures s' = hard_failures s + 1
         ∧ blacklist_until s'
           = Z.max (blacklist_until s)
               (now + blacklist_ttl (hard_failures s + 1))
         ∧ probation_successes s' = 0
         ∧ probation_target s' = 2).
Proof.
  intros Hfind. split; [reflexivity|].
  unfold mark_cooldown. rewrite find_state_mark_result, Hfind.
  eexists. split; [reflexivity|].
  rewrite rate_limited_call_state. change (Z.max 1 <$> Some seconds)
    with (Some (Z.max 1 seconds)).
  destruct (mark_rate_limited_override_fields s now seconds)
    as (Hk & Hlow & Hhigh).
  cbv zeta in *. rewrite Hk.
  split; [reflexivity|]. split; [|split; assumption].
  destruct (Z.lt_ge_cases (rate_limit_strikes s + 1) 5) as [Hlt|Hge].
  - destruct (Hlow Hlt) as (He & _). lia.
  - destruct (Hhigh Hge) as (He & _). lia.
Qed.

Lemma mark_cooldown_as_mark_result_witness :
  mark_cooldown pool_four_strikes "a.json" 60 1000
  = mark_result pool_four_strikes "a.json" 429 None (Some 60) 1000
  ∧ blacklist_reason
      <$> find_state "a.json"
            (states (mark_cooldown pool_four_strikes "a.json" 60 1000))
    = Some (Some "rate_limited_persistent").
Proof.
  destruct (mark_cooldown_as_mark_result pool_four_strikes "a.json" 60 1000
              (foldl mark_call_state (fresh_state rec_a)
                 (replicate 4 (rate_limited_at 1000))))
    as (Heq & s' & Hfind & Hk & _ & _ & Hhigh).
  - vm_compute. reflexivity.
  - split; [exact Heq|]. rewrite Hfind. simpl.
    destruct Hhigh as (_ & Hbr & _).
    + rewrite Hk. vm_compute. discriminate.
    + rewrite Hbr. reflexivity.
Defined.

(** C9.  [mark_result] under a name that no loaded record carries is a
    no-op whatever the status: the states and the cursor are as before.
    (The function has no failing path: [status] is only looked at once a
    name has matched.) *)
Theorem mark_result_unknown_name (p : Pool) (auth_name : string) (status : Z)
    (error_code : option string) (cooldown_seconds : option Z) (now : Z) :
  Forall (λ st, name (record st) ≠ auth_name) (states p) →
  mark_result p auth_name status error_code cooldown_seconds now = p.
Proof.
  intros Habsent. destruct p as [sts ix]. unfold mark_result; simpl in *.
  rewrite mark_first_absent by assumption. reflexivity.
Qed.

Lemma mark_result_unknown_name_witness :
  mark_result pool_blacklisted "c.json" 401 (Some "token_expired") None 1000
  = pool_blacklisted.
Proof.
  apply (mark_result_unknown_name pool_blacklisted "c.json" 401
           (Some "token_expired") None 1000).
  repeat constructor; vm_compute; discriminate.
Defined.

End RotationSpec.

(** * Properties of the trace store *)

Module TraceFacts.
Import Trace.

(** A reference handed out by [alloc] is new. *)
Lemma fresh_not_in (h : gmap positive Obj) : h !! fresh (dom h) = None.
Proof. apply not_elem_of_dom. apply is_fresh. Qed.

Lemma buffer_lookup h st q :
  buffer h st = Some q ↔ h !! items st = Some (OList q).
Proof.
  unfold buffer. destruct (h !! items st) as [[d|q']|]; split; congruence.
Qed.

Lemma deque_append_length maxlen q x :
  Z.of_nat (length q) ≤ maxlen →
  Z.of_nat (length (deque_append maxlen q x)) ≤ maxlen.
Proof.
  intros Hlen. unfold deque_append.
  destruct (Z.ltb_spec maxlen (Z.of_nat (length (q ++ [x])))) as [Hover|Hfit].
  - destruct q as [|y q]; simpl in *; [lia|].
    rewrite length_app in *; simpl in *. lia.
  - exact Hfit.
Qed.

Lemma deque_append_last maxlen q x :
  1 ≤ maxlen → last (deque_append maxlen q x) = Some x.
Proof.
  intros Hmax. unfold deque_append.
  destruct (Z.ltb_spec maxlen (Z.of_nat (length (q ++ [x])))) as [Hover|Hfit].
  - destruct q as [|y q]; simpl in *; [lia|]. apply last_snoc.
  - apply last_snoc.
Qed.

(** What one [add] does, spelled out. *)
Lemma add_spec h st event d q :
  h !! event = Some (ODict d) →
  h !! items st = Some (OList q) →
  let payload := fresh (dom h) in
  add h st event
  = Some (<[items st := OList (deque_append (max_size st) q payload)]>
            (<[payload := ODict (<["id" := PyInt (seq st + 1)]> d)]>
               (<[payload := ODict d]> h)),
          {| max_size := max_size st; items := items st; seq := seq st + 1 |},
          payload).
Proof. intros He Hq. unfold add, alloc. rewrite He, Hq. reflexivity. Qed.

Lemma add_inv h st event h' st' payload :
  add h st event = Some (h', st', payload) →
  ∃ d q,
    h !! event = Some (ODict d)
    ∧ h !! items st = Some (OList q)
    ∧ payload = fresh (dom h)
    ∧ st' = {| max_size := max_size st; items := items st; seq := seq st + 1 |}
    ∧ h' = <[items st := OList (deque_append (max_size st) q payload)]>
             (<[payload := ODict (<["id" := PyInt (seq st + 1)]> d)]>
                (<[payload := ODict d]> h)).
Proof.
  unfold add, alloc.
  destruct (h !! event) as [[d|?]|] eqn:He; try discriminate.
  destruct (h !! items st) as [[?|q]|] eqn:Hq; try discriminate.
  intros [= <- <- <-]. exists d, q. repeat split; reflexivity.
Qed.

(** [add] leaves every object that existed before untouched, the deque
    apart. *)
Lemma add_frame h st event h' st' payload l :
  add h st event = Some (h', st', payload) →
  l ≠ items st → is_Some (h !! l) → h' !! l = h !! l.
Proof.
  intros Hadd Hne [o Ho].
  destruct (add_inv _ _ _ _ _ _ Hadd) as (d & q & He & Hq & -> & -> & ->).
  assert (Hfresh : fresh (dom h) ≠ l).
  { intros <-. rewrite fresh_not_in in Ho. discriminate. }
  rewrite lookup_insert_ne by (intros E; apply Hne; symmetry; exact E).
  rewrite !lookup_insert_ne by assumption. reflexivity.
Qed.

Lemma add_valid h st event h' st' payload :
  valid h st →
  add h st event = Some (h', st', payload) →
  valid h' st' ∧ items st' = items st ∧ max_size st' = max_size st
  ∧ seq st' = seq st + 1.
Proof.
  intros (Hmax & q0 & Hq0 & Hlen) Hadd.
  destruct (add_inv _ _ _ _ _ _ Hadd) as (d & q & He & Hq & -> & -> & ->).
  apply buffer_lookup in Hq0. rewrite Hq in Hq0. injection Hq0 as ->.
  simpl. repeat split; try reflexivity; try assumption.
  eexists. split.
  - apply buffer_lookup. simpl. apply lookup_insert_eq.
  - apply deque_append_length. exact Hlen.
Qed.

(** The payload [add] returns: a new dict, the event's entries with
    ["id"] set to the new sequence number. *)
Lemma add_payload h st event h' st' payload d :
  add h st event = Some (h', st', payload) →
  h !! event = Some (ODict d) →
  h !! payload = None
  ∧ payload ≠ event
  ∧ payload ≠ items st
  ∧ h' !! payload = Some (ODict (<["id" := PyInt (seq st + 1)]> d)).
Proof.
  intros Hadd He.
  destruct (add_inv _ _ _ _ _ _ Hadd) as (d' & q & He' & Hq & -> & -> & ->).
  rewrite He in He'. injection He' as <-.
  pose proof (fresh_not_in h) as Hfresh.
  assert (Hpe : fresh (dom h) ≠ event) by (intros E; rewrite E in Hfresh; congruence).
  assert (Hpi : fresh (dom h) ≠ items st) by (intros E; rewrite E in Hfresh; congruence).
  repeat split; try assumption.
  rewrite lookup_insert_ne by (intros E; apply Hpi; symmetry; exact E).
  apply lookup_insert_eq.
Qed.

Lemma init_spec h m :
  let '(h1, st) := init h m in
  valid h1 st
  ∧ seq st = 0
  ∧ max_size st = Z.max 1 m
  ∧ buffer h1 st = Some []
  ∧ h !! items st = None
  ∧ ∀ l, is_Some (h !! l) → h1 !! l = h !! l.
Proof.
  unfold init, alloc; simpl.
  pose proof (fresh_not_in h) as Hfresh.
  assert (Hb : buffer (<[fresh (dom h) := OList []]> h)
                 {| max_size := Z.max 1 m; items := fresh (dom h); seq := 0 |}
               = Some []).
  { apply buffer_lookup. simpl. apply lookup_insert_eq. }
  split; [|repeat split; try assumption].
  - split; simpl; [lia|]. exists []. split; [exact Hb | simpl; lia].
  - intros l [o Ho]. apply lookup_insert_ne. intros E. congruence.
Qed.

Lemma events_in_frame h h' events :
  (∀ l, is_Some (h !! l) → h' !! l = h !! l) →
  events_in h events → events_in h' events.
Proof.
  intros Hframe Hev. unfold events_in in *.
  eapply Forall_impl; [exact Hev|].
  intros e [d Hd]. exists d. rewrite Hframe; [exact Hd | eauto].
Qed.

(** Successive adds: each one succeeds, the payloads keep the ids they
    were given, and everything but the deque is left as it was. *)
Lemma add_all_spec events : ∀ h st,
  valid h st →
  events_in h events →
  ∃ h' st' payloads,
    add_all h st events = Some (h', st', payloads)
    ∧ valid h' st'
    ∧ items st' = items st
    ∧ max_size st' = max_size st
    ∧ seq st' = seq st + Z.of_nat (length events)
    ∧ id_of h' <$> payloads
      = (λ z, Some (PyInt z)) <$> seqZ (seq st + 1) (Z.of_nat (length events))
    ∧ (∀ l, l ≠ items st → is_Some (h !! l) → h' !! l = h !! l).
Proof.
  induction events as [|event events IH]; intros h st Hvalid Hev.
  - exists h, st, []. simpl.
    split; [reflexivity|]. split; [assumption|].
    split; [reflexivity|]. split; [reflexivity|].
    split; [lia|]. split; [reflexivity | intros; reflexivity].
  - inversion Hev as [|? ? [d Hd] Hrest]; subst.
    destruct Hvalid as (Hmax & q & Hq & Hlen).
    pose proof Hq as Hq'. apply buffer_lookup in Hq'.
    pose proof (add_spec h st event d q Hd Hq') as Hadd. cbv zeta in Hadd.
    match type of Hadd with
    | _ = Some (?a, ?b, ?c) => set (h1 := a) in *; set (st1 := b) in *;
                               set (p := c) in *
    end.
    destruct (add_valid _ _ _ _ _ _ (conj Hmax (ex_intro _ q (conj Hq Hlen))) Hadd)
      as (Hvalid1 & Hitems1 & Hmax1 & Hseq1).
    destruct (add_payload _ _ _ _ _ _ _ Hadd Hd) as (Hpnew & Hpe & Hpi & Hp1).
    assert (Hframe1 : ∀ l, l ≠ items st → is_Some (h !! l) → h1 !! l = h !! l)
      by (intros l; apply (add_frame _ _ _ _ _ _ l Hadd)).
    assert (Hev1 : events_in h1 events).
    { unfold events_in in *. eapply Forall_impl; [exact Hrest|].
      intros e [d' Hd']. exists d'. rewrite Hframe1; [exact Hd' | | eauto].
      intros E. rewrite E in Hd'. congruence. }
    destruct (IH h1 st1 Hvalid1 Hev1)
      as (h2 & st2 & ps & Hall & Hvalid2 & Hitems2 & Hmax2 & Hseq2 & Hids & Hframe2).
    exists h2, st2, (p :: ps). simpl add_all. rewrite Hadd, Hall.
    split; [reflexivity|]. split; [assumption|].
    split; [congruence|]. split; [congruence|].
    split; [rewrite Hseq2, Hseq1; simpl length; lia|].
    split.
    + simpl length. rewrite Nat2Z.inj_succ, seqZ_cons by lia.
      rewrite !fmap_cons. f_equal.
      * unfold id_of. rewrite Hframe2; [| rewrite Hitems1; exact Hpi | eauto].
        rewrite Hp1. apply lookup_insert_eq.
      * rewrite Hids, Hseq1, Z.pred_succ. f_equal; f_equal; lia.
    + intros l Hl Hsome. rewrite Hframe2.
      * apply Hframe1; assumption.
      * rewrite Hitems1. exact Hl.
      * rewrite Hframe1; assumption.
Qed.

End TraceFacts.

Module TraceSpec.
Import Trace TraceScenario TraceFacts.

(** C6.  On a new [TraceStore], whatever its capacity, any sequence of
    [add] calls succeeds and the ids stamped into the returned payloads
    are 1, 2, 3, ... in call order: no gap, no duplicate, also once the
    ring buffer evicts. *)
Theorem add_ids_sequential (h0 : gmap positive Obj) (m : Z)
    (events : list positive) :
  events_in h0 events →
  ∃ h' st' payloads,
    add_all (init h0 m).1 (init h0 m).2 events = Some (h', st', payloads)
    ∧ length payloads = length events
    ∧ id_of h' <$> payloads
      = (λ z, Some (PyInt z)) <$> seqZ 1 (Z.of_nat (length events))
    ∧ seq st' = Z.of_nat (length events).
Proof.
  intros Hev.
  pose proof (init_spec h0 m) as Hinit.
  destruct (init h0 m) as [h st] eqn:Hi. simpl.
  destruct Hinit as (Hvalid & Hseq & _ & _ & _ & Hframe).
  destruct (add_all_spec events h st Hvalid (events_in_frame _ _ _ Hframe Hev))
    as (h' & st' & ps & Hall & _ & _ & _ & Hseq' & Hids & _).
  exists h', st', ps. rewrite Hseq in *.
  split; [exact Hall|]. split; [|split; [exact Hids | lia]].
  apply (f_equal length) in Hids. rewrite !length_fmap, length_seqZ in Hids.
  lia.
Qed.

Lemma add_ids_sequential_witness :
  ∃ h' st' payloads,
    add_all store2.1 store2.2 [5; 6; 5]%positive = Some (h', st', payloads)
    ∧ length payloads = 3%nat
    ∧ id_of h' <$> payloads = [Some (PyInt 1); Some (PyInt 2); Some (PyInt 3)]
    ∧ seq st' = 3.
Proof.
  apply (add_ids_sequential caller_heap 2 [5; 6; 5]%positive).
  repeat constructor; eexists; vm_compute; reflexivity.
Defined.

(** C10.  [add] allocates a new dict, the event's entries plus ["id"],
    stores that dict as the newest element of the buffer and returns it;
    the dict of the caller is not written, so it does not gain an ["id"]
    key.  [list] returns a new list object: the deque is not the object
    returned, and whatever is written to the returned list leaves the
    buffer's contents as they were. *)
Theorem add_copies_list_is_fresh (h : gmap positive Obj) (st : TraceStore)
    (event : positive) (d : gmap string PyVal) (limit : Z) :
  valid h st →
  h !! event = Some (ODict d) →
  (∃ h' st' payload,
     add h st event = Some (h', st', payload)
     ∧ h !! payload = None
     ∧ payload ≠ event
     ∧ h' !! event = Some (ODict d)
     ∧ id_of h' event = d !! "id"
     ∧ h' !! payload = Some (ODict (<["id" := PyInt (seq st + 1)]> d))
     ∧ ∃ q', buffer h' st' = Some q' ∧ last q' = Some payload)
  ∧ (∃ h' r q,
       list_ h st limit = Some (h', r)
       ∧ buffer h st = Some q
       ∧ h !! r = None
       ∧ r ≠ items st
       ∧ h' !! r
         = Some (OList (if 0 <? limit
                        then drop (length q - Z.to_nat limit) q else q))
       ∧ buffer h' st = Some q
       ∧ ∀ o, buffer (<[r := o]> h') st = Some q).
Proof.
  intros (Hmax & q & Hq & Hlen) Hd.
  pose proof Hq as Hq'. apply buffer_lookup in Hq'.
  split.
  - pose proof (add_spec h st event d q Hd Hq') as Hadd. cbv zeta in Hadd.
    destruct (add_payload _ _ _ _ _ _ _ Hadd Hd) as (Hpnew & Hpe & Hpi & Hp1).
    assert (Hev : items st ≠ event) by (intros E; rewrite E in Hq'; congruence).
    assert (He' : is_Some (h !! event)) by eauto.
    apply (add_frame _ _ _ _ _ _ event Hadd) in He';
      [| intros E; apply Hev; symmetry; exact E].
    rewrite Hd in He'.
    do 3 eexists. split; [exact Hadd|].
    split; [exact Hpnew|]. split; [exact Hpe|].
    split; [exact He'|]. split; [unfold id_of; rewrite He'; reflexivity|].
    split; [exact Hp1|]. eexists. split.
    + apply buffer_lookup. simpl. apply lookup_insert_eq.
    + apply deque_append_last. exact Hmax.
  - unfold list_, alloc. rewrite Hq'.
    set (c := fresh (dom h)).
    assert (Hc : h !! c = None) by apply fresh_not_in.
    assert (Hci : c ≠ items st) by (intros E; rewrite E in Hc; congruence).
    destruct (Z.ltb_spec 0 limit) as [Hpos|Hnon].
    + set (h1 := <[c := OList q]> h).
      set (r := fresh (dom h1)).
      assert (Hr1 : h1 !! r = None) by apply fresh_not_in.
      assert (Hrc : r ≠ c).
      { intros E. rewrite E in Hr1. subst h1. rewrite lookup_insert_eq in Hr1.
        discriminate. }
      assert (Hr : h !! r = None).
      { subst h1. rewrite lookup_insert_ne in Hr1 by congruence. exact Hr1. }
      assert (Hri : r ≠ items st) by (intros E; rewrite E in Hr; congruence).
      exists (<[r := OList (drop (length q - Z.to_nat limit) q)]> h1), r, q.
      split; [reflexivity|]. split; [exact Hq|]. split; [exact Hr|].
      split; [exact Hri|]. split; [apply lookup_insert_eq|].
      split; [|intros o]; apply buffer_lookup; subst h1;
        rewrite !lookup_insert_ne by congruence; exact Hq'.
    + exists (<[c := OList q]> h), c, q.
      split; [reflexivity|]. split; [exact Hq|]. split; [exact Hc|].
      split; [exact Hci|]. split; [apply lookup_insert_eq|].
      split; [|intros o]; apply buffer_lookup;
        rewrite !lookup_insert_ne by congruence; exact Hq'.
Qed.

Lemma add_copies_list_is_fresh_witness :
  (∃ h' st' payload,
     add store2.1 store2.2 5%positive = Some (h', st', payload)
     ∧ payload ≠ 5%positive
     ∧ id_of h' 5%positive = None
     ∧ id_of h' payload = Some (PyInt 1))
  ∧ (∃ h' r,
       list_ store2.1 store2.2 0 = Some (h', r)
       ∧ r ≠ items store2.2
       ∧ ∀ o, buffer (<[r := o]> h') store2.2 = Some []).
Proof.
  destruct (add_copies_list_is_fresh store2.1 store2.2 5%positive
              {[ "status" := PyInt 200; "path" := PyStr "/responses" ]} 0)
    as [(h' & st' & p & Hadd & _ & Hpe & _ & Hid & Hp & _)
        (h2 & r & q & Hlist & Hq & _ & Hri & _ & _ & Hw)].
  - split; [vm_compute; discriminate|].
    exists []. split; [vm_compute; reflexivity | simpl; lia].
  - vm_compute. reflexivity.
  - split.
    + exists h', st', p. split; [exact Hadd|]. split; [exact Hpe|].
      split; [rewrite Hid; vm_compute; reflexivity|].
      unfold id_of. rewrite Hp. apply lookup_insert_eq.
    + exists h2, r. split; [exact Hlist|]. split; [exact Hri|].
      intros o. rewrite Hw. rewrite <- Hq. vm_compute. reflexivity.
Defined.

End TraceSpec.

(** * Properties of the path rewrite *)

Module RulesFacts.
Import Rules.

Lemma startswith_app s prefix :
  startswith s prefix = true ↔ ∃ suffix, s = prefix +:+ suffix.
Proof.
  revert s. induction prefix as [|p prefix IH]; intros s; simpl.
  - split; [intros _; exists s; reflexivity | reflexivity].
  - destruct s as [|c s].
    + split; [discriminate | intros [suffix H]; discriminate].
    + rewrite andb_true_iff, Ascii.eqb_eq, IH. split.
      * intros [-> [suffix ->]]. exists suffix. reflexivity.
      * intros [suffix [= -> ->]]. split; [reflexivity | eauto].
Qed.

Lemma drop_chars_app prefix suffix :
  drop_chars (String.length prefix) (prefix +:+ suffix) = suffix.
Proof. induction prefix as [|p prefix IH]; simpl; [destruct suffix|]; auto. Qed.

(** The loop over the table returns at the first pattern that matches. *)
Lemma rewrite_with_first pre old_prefix new_prefix post suffix :
  Forall (λ pat, startswith (old_prefix +:+ suffix) pat.1 = false) pre →
  rewrite_with (pre ++ (old_prefix, new_prefix) :: post) (old_prefix +:+ suffix)
  = new_prefix +:+ suffix.
Proof.
  induction 1 as [|[o n] pre Ho _ IH]; simpl.
  - assert (Hm : startswith (old_prefix +:+ suffix) old_prefix = true)
      by (apply startswith_app; eauto).
    rewrite Hm, drop_chars_app. reflexivity.
  - simpl in Ho. rewrite Ho. exact IH.
Qed.

Lemma rewrite_with_none patterns req_path :
  Forall (λ pat, startswith req_path pat.1 = false) patterns →
  rewrite_with patterns req_path = req_path.
Proof.
  induction 1 as [|[o n] pats Ho _ IH]; simpl; [reflexivity|].
  simpl in Ho. rewrite Ho. exact IH.
Qed.

(** No pattern of the table matches a path that is already under
    [/codex/responses]. *)
Lemma rewrite_with_codex req_path :
  startswith req_path "/codex/responses" = true →
  rewrite_with PATH_REWRITE_PATTERNS req_path = req_path.
Proof.
  intros [suffix ->]%startswith_app. reflexivity.
Qed.

(** What the table produces is under [/codex/responses], unless the path
    is returned as it is. *)
Lemma rewrite_with_result req_path :
  rewrite_with PATH_REWRITE_PATTERNS req_path = req_path
  ∨ startswith (rewrite_with PATH_REWRITE_PATTERNS req_path) "/codex/responses"
    = true.
Proof.
  unfold PATH_REWRITE_PATTERNS, rewrite_with.
  repeat (match goal with
          | |- context [if startswith ?s ?p then _ else _] =>
              destruct (startswith s p); [right; reflexivity|]
          end).
  left. reflexivity.
Qed.

End RulesFacts.

Module RulesSpec.
Import Rules RulesFacts.

(** C7 as stated fails on "exactly": with the base path [/backend-api/]
    (one trailing slash), which is not [/backend-api], the request path
    [/responses] is rewritten all the same. *)
Lemma rewrite_request_path_base_counterexample :
  "/backend-api/" ≠ "/backend-api"
  ∧ rewrite_request_path "/responses" (Some "chatgpt.com") "/backend-api/"
    = "/codex/responses"
  ∧ rewrite_request_path "/responses" (Some "chatgpt.com") "/backend-api/"
    ≠ "/responses".
Proof.
  split; [discriminate|]. split; [vm_compute; reflexivity|].
  vm_compute. discriminate.
Qed.

(** C7 (amended).  [rewrite_request_path] rewrites a path only when the
    upstream host, in lower case, is [chatgpt.com] or [chat.openai.com]
    and the upstream base path, with its trailing slashes removed, is
    [/backend-api].  It then applies the first matching prefix of the
    ordered table and keeps the suffix; a path that matches no prefix,
    and so every path already under [/codex/responses], is returned
    unchanged.  Consequently it is idempotent. *)
Theorem rewrite_request_path_idempotent (req_path : string)
    (upstream_host : option string) (upstream_base_path : string) :
  let rewrite p := rewrite_request_path p upstream_host upstream_base_path in
  let privileged :=
    lower (default EmptyString upstream_host) ∈ CHATGPT_HOSTS
    ∧ rstrip_slash upstream_base_path = "/backend-api" in
  (rewrite req_path ≠ req_path → privileged)
  ∧ (privileged →
     ∀ pre old_prefix new_prefix post suffix,
       PATH_REWRITE_PATTERNS = pre ++ (old_prefix, new_prefix) :: post →
       req_path = old_prefix +:+ suffix →
       Forall (λ pat, startswith req_path pat.1 = false) pre →
       rewrite req_path = new_prefix +:+ suffix)
  ∧ (Forall (λ pat, startswith req_path pat.1 = false) PATH_REWRITE_PATTERNS →
     rewrite req_path = req_path)
  ∧ (startswith req_path "/codex/responses" = true →
     rewrite req_path = req_path)
  ∧ rewrite (rewrite req_path) = rewrite req_path.
Proof.
  intros rewrite privileged. subst rewrite privileged.
  unfold rewrite_request_path.
  destruct (decide (lower (default EmptyString upstream_host) ∈ CHATGPT_HOSTS))
    as [Hhost|Hhost];
    [destruct (decide (rstrip_slash upstream_base_path = "/backend-api"))
       as [Hbase|Hbase]|].
  - split; [intros _; split; assumption|].
    split.
    { intros _ pre o n post suffix Htable -> Hpre.
      rewrite Htable. apply rewrite_with_first. exact Hpre. }
    split; [apply rewrite_with_none|].
    split; [apply rewrite_with_codex|].
    destruct (rewrite_with_result req_path) as [Hsame|Hcodex].
    + rewrite Hsame. exact Hsame.
    + apply rewrite_with_codex. exact Hcodex.
  - split; [intros H; destruct H; reflexivity|].
    split; [intros [_ H]; contradiction|]. repeat split; reflexivity.
  - split; [intros H; destruct H; reflexivity|].
    split; [intros [H _]; contradiction|]. repeat split; reflexivity.
Qed.

Lemma rewrite_request_path_idempotent_witness :
  rewrite_request_path "/v1/responses/compact?x=1" (Some "Chat.OpenAI.com")
    "/backend-api//"
  = "/codex/responses/compact" +:+ "?x=1".
Proof.
  destruct (rewrite_request_path_idempotent "/v1/responses/compact?x=1"
              (Some "Chat.OpenAI.com") "/backend-api//")
    as (_ & Hfirst & _).
  refine (Hfirst _ [] "/v1/responses/compact" "/codex/responses/compact"
            (tail PATH_REWRITE_PATTERNS) "?x=1" _ _ _).
  - split; [|vm_compute; reflexivity].
    apply (bool_decide_unpack _). vm_compute. exact I.
  - reflexivity.
  - reflexivity.
  - constructor.
Defined.

End RulesSpec.

(** * Further properties: selection, reload, outcomes, invariant *)

Module RotationMore.
Import Models Rotation Scenario Invariant RotationFacts.

(** *** [status] against [available] *)

(** X1.  [available] and [status] agree: a state can be selected exactly when
    its label is OK or PROBATION. *)
Theorem available_status (s : AuthState) (t : Z) :
  available s t = true ↔ status s t = "OK" ∨ status s t = "PROBATION".
Proof.
  unfold available, status.
  destruct (t <? blacklist_until s), (t <? cooldown_until s),
    (probation_successes s <? probation_target s), (t <? next_probe_after s);
    simpl; split; intros H; try discriminate; try reflexivity;
    try (destruct H; discriminate); auto.
Qed.

(** *** [stats] *)

Lemma stats_step_sum now counts s :
  let c' := stats_step now counts s in
  stats_total c' = stats_total counts
  ∧ stats_ok c' + stats_cooldown c' + stats_blacklist c' + stats_probation c'
    = stats_ok counts + stats_cooldown counts + stats_blacklist counts
      + stats_probation counts + 1
  ∧ stats_ok c' + stats_probation c'
    = stats_ok counts + stats_probation counts
      + (if available s now then 1 else 0).
Proof.
  unfold stats_step, available, status.
  destruct (now <? blacklist_until s), (now <? cooldown_until s),
    (probation_successes s <? probation_target s), (now <? next_probe_after s);
    simpl; repeat split; lia.
Qed.

Lemma available_from_length i sts now :
  Z.of_nat (length (available_from i sts now))
  = foldr (λ s acc, (if available s now then 1 else 0) + acc) 0 sts.
Proof.
  revert i. induction sts as [|s sts IH]; intros i; simpl; [reflexivity|].
  destruct (available s now); simpl; rewrite <- (IH (S i)); lia.
Qed.

Lemma stats_fold now sts : ∀ counts,
  let c' := foldl (stats_step now) counts sts in
  stats_total c' = stats_total counts
  ∧ stats_ok c' + stats_cooldown c' + stats_blacklist c' + stats_probation c'
    = stats_ok counts + stats_cooldown counts + stats_blacklist counts
      + stats_probation counts + Z.of_nat (length sts)
  ∧ stats_ok c' + stats_probation c'
    = stats_ok counts + stats_probation counts
      + foldr (λ s acc, (if available s now then 1 else 0) + acc) 0 sts.
Proof.
  induction sts as [|s sts IH]; intros counts; simpl.
  - repeat split; lia.
  - destruct (stats_step_sum now counts s) as (Ht & Hsum & Hav).
    destruct (IH (stats_step now counts s)) as (Ht' & Hsum' & Hav').
    cbv zeta in *. repeat split; lia.
Qed.

(** X2.  [stats] partitions the pool: the four tallies add up to [total],
    which is [count]; and OK plus PROBATION is the number of states
    [pick] can choose from. *)
Theorem stats_partition (p : Pool) (now : Z) :
  let c := stats p now in
  stats_total c = count p
  ∧ stats_ok c + stats_cooldown c + stats_blacklist c + stats_probation c
    = stats_total c
  ∧ stats_ok c + stats_probation c
    = Z.of_nat (length (available_positions (states p) now))
  ∧ 0 ≤ stats_ok c ∧ 0 ≤ stats_cooldown c ∧ 0 ≤ stats_blacklist c
  ∧ 0 ≤ stats_probation c.
Proof.
  unfold stats, count, available_positions.
  destruct (stats_fold now (states p)
              (mkStats 0 0 0 0 (Z.of_nat (length (states p)))))
    as (Ht & Hsum & Hav).
  cbv zeta in *. simpl in *. rewrite available_from_length.
  split; [exact Ht|]. split; [lia|]. split; [lia|].
  clear Ht Hsum Hav.
  set (c0 := mkStats 0 0 0 0 (Z.of_nat (length (states p)))).
  assert (H0 : 0 ≤ stats_ok c0 ∧ 0 ≤ stats_cooldown c0
               ∧ 0 ≤ stats_blacklist c0 ∧ 0 ≤ stats_probation c0)
    by (simpl; lia).
  revert H0. generalize c0. induction (states p) as [|s sts IH]; intros c Hc.
  - exact Hc.
  - simpl. apply IH. unfold stats_step.
    repeat case_match; simpl; lia.
Qed.

(** *** [pick] *)

Lemma available_from_elem i sts now pos :
  pos ∈ available_from i sts now ↔
  ∃ s, (i ≤ pos)%nat ∧ sts !! (pos - i)%nat = Some s ∧ available s now = true.
Proof.
  revert i. induction sts as [|s sts IH]; intros i; simpl.
  - split; [intros H; inversion H | intros (s & _ & H & _); discriminate].
  - assert (Hrest : pos ∈ available_from (S i) sts now ↔
                    ∃ s', (i < pos)%nat ∧ (s :: sts) !! (pos - i)%nat = Some s'
                          ∧ available s' now = true).
    { rewrite IH. split.
      - intros (s' & Hle & Hl & Ha). exists s'. split; [lia|]. split; [|exact Ha].
        replace (pos - i)%nat with (S (pos - S i)) by lia. exact Hl.
      - intros (s' & Hlt & Hl & Ha). exists s'. split; [lia|]. split; [|exact Ha].
        replace (pos - i)%nat with (S (pos - S i)) in Hl by lia. exact Hl. }
    destruct (available s now) eqn:Ha.
    + rewrite elem_of_cons, Hrest. split.
      * intros [-> | (s' & Hlt & Hl & Ha')].
        -- exists s. rewrite Nat.sub_diag. auto.
        -- exists s'. split; [lia | auto].
      * intros (s' & Hle & Hl & Ha').
        destruct (decide (pos = i)) as [->|Hne]; [left; reflexivity|].
        right. exists s'. split; [lia | auto].
    + rewrite Hrest. split.
      * intros (s' & Hlt & Hl & Ha'). exists s'. split; [lia | auto].
      * intros (s' & Hle & Hl & Ha').
        destruct (decide (pos = i)) as [->|Hne].
        -- rewrite Nat.sub_diag in Hl. simpl in Hl. congruence.
        -- exists s'. split; [lia | auto].
Qed.

Lemma available_positions_elem sts now pos :
  pos ∈ available_positions sts now ↔
  ∃ s, sts !! pos = Some s ∧ available s now = true.
Proof.
  unfold available_positions. rewrite available_from_elem.
  rewrite Nat.sub_0_r. split.
  - intros (s & _ & H). eauto.
  - intros (s & H). exists s. split; [lia | exact H].
Qed.

Lemma available_positions_nil sts now :
  available_positions sts now = [] ↔
  Forall (λ s, available s now = false) sts.
Proof.
  split.
  - intros Hnil. apply Forall_lookup. intros i s Hi.
    destruct (available s now) eqn:Ha; [|reflexivity].
    assert (Hin : i ∈ available_positions sts now)
      by (apply available_positions_elem; eauto).
    rewrite Hnil in Hin. inversion Hin.
  - intros Hall. destruct (available_positions sts now) as [|pos l] eqn:Hp;
      [reflexivity|].
    assert (Hin : pos ∈ available_positions sts now)
      by (rewrite Hp; left).
    apply available_positions_elem in Hin as (s & Hs & Ha).
    rewrite Forall_lookup in Hall. rewrite (Hall _ _ Hs) in Ha. discriminate.
Qed.

Lemma available_positions_length_le sts now :
  (length (available_positions sts now) ≤ length sts)%nat.
Proof.
  unfold available_positions. generalize 0%nat.
  induction sts as [|x l IH]; intros i; simpl; [lia|].
  destruct (available x now); simpl; specialize (IH (S i)); lia.
Qed.

(** [pick] with something to choose from, spelled out. *)
Lemma pick_spec p now :
  available_positions (states p) now ≠ [] →
  let n := Z.of_nat (length (available_positions (states p) now)) in
  ∃ pos s,
    available_positions (states p) now !! Z.to_nat (index p `mod` n) = Some pos
    ∧ states p !! pos = Some s
    ∧ available s now = true
    ∧ pick p now
      = (Some (pick_state s now),
         {| states := <[pos := pick_state s now]> (states p);
            index := (index p + 1) `mod` n |}).
Proof.
  intros Hne n.
  assert (Hn : 0 < n).
  { subst n. destruct (available_positions (states p) now); [congruence|].
    simpl. lia. }
  pose proof (Z.mod_pos_bound (index p) n Hn) as Hb.
  destruct (lookup_lt_is_Some_2 (available_positions (states p) now)
              (Z.to_nat (index p `mod` n))) as [pos Hpos]; [subst n; lia|].
  assert (Hin : pos ∈ available_positions (states p) now)
    by (eapply list_elem_of_lookup_2; exact Hpos).
  apply available_positions_elem in Hin as (s & Hs & Ha).
  exists pos, s. split; [exact Hpos|]. split; [exact Hs|]. split; [exact Ha|].
  unfold pick. fold n.
  destruct (available_positions (states p) now) as [|a l] eqn:Hav;
    [congruence|].
  rewrite <- Hav in *. fold n. rewrite Hpos, Hs. reflexivity.
Qed.

Lemma pick_nil p now :
  available_positions (states p) now = [] → pick p now = (None, p).
Proof. intros Hnil. unfold pick. rewrite Hnil. reflexivity. Qed.

(** X3.  [pick] answers [None] exactly when no state is available, and then
    nothing in the pool has changed. *)
Theorem pick_none_iff (p : Pool) (now : Z) :
  ((pick p now).1 = None ↔ Forall (λ s, available s now = false) (states p))
  ∧ ((pick p now).1 = None → (pick p now).2 = p).
Proof.
  destruct (decide (available_positions (states p) now = [])) as [Hnil|Hne].
  - rewrite (pick_nil p now Hnil). simpl. split; [|reflexivity].
    split; [intros _; apply available_positions_nil; exact Hnil | reflexivity].
  - destruct (pick_spec p now Hne) as (pos & s & _ & _ & _ & Hp).
    rewrite Hp. simpl. split; [|discriminate].
    split; [discriminate|]. intros Hall.
    apply available_positions_nil in Hall. contradiction.
Qed.

Lemma auth_files_insert (sts : list AuthState) (pos : nat) s s' :
  sts !! pos = Some s → record s' = record s →
  (λ st, name (record st)) <$> <[pos := s']> sts
  = (λ st, name (record st)) <$> sts.
Proof.
  intros Hs Hr. rewrite list_fmap_insert. apply list_insert_id.
  rewrite list_lookup_fmap, Hs. simpl. rewrite Hr. reflexivity.
Qed.

Lemma pick_state_alt s now :
  pick_state s now
  = set_next_probe_after
      (if probation_successes s <? probation_target s
       then now + 20 else next_probe_after s)
      (set_used (used s + 1) s).
Proof. unfold pick_state; simpl. destruct s; simpl. case_match; reflexivity. Qed.

Lemma pick_state_record s now : record (pick_state s now) = record s.
Proof. unfold pick_state. case_match; reflexivity. Qed.

(** A [pick] that returned a state, read backwards. *)
Lemma pick_inv (p p' : Pool) (now : Z) (s' : AuthState) :
  pick p now = (Some s', p') →
  ∃ pos s,
    states p !! pos = Some s
    ∧ available s now = true
    ∧ s' = pick_state s now
    ∧ available_positions (states p) now ≠ []
    ∧ p' = {| states := <[pos := s']> (states p);
              index := (index p + 1)
                         `mod` Z.of_nat (length (available_positions (states p) now)) |}.
Proof.
  intros Hpick.
  destruct (decide (available_positions (states p) now = [])) as [Hnil|Hne].
  { rewrite (pick_nil p now Hnil) in Hpick. discriminate. }
  destruct (pick_spec p now Hne) as (pos & s & Hpos & Hs & Ha & Hp).
  rewrite Hp in Hpick. injection Hpick as <- <-.
  exists pos, s. repeat split; assumption.
Qed.

(** X4.  When [pick] returns a state, that state was available; it is the
    stored state with [used] one higher (and, in probation only, the
    probe timer moved to [now + 20]); the pool differs at that one
    position only, keeps its names, and the cursor stays below the
    number of states that were available. *)
Theorem pick_chooses_available (p p' : Pool) (now : Z) (s' : AuthState) :
  pick p now = (Some s', p') →
  ∃ pos s,
    states p !! pos = Some s
    ∧ available s now = true
    ∧ states p' = <[pos := s']> (states p)
    ∧ s' = set_next_probe_after
             (if probation_successes s <? probation_target s
              then now + 20 else next_probe_after s)
             (set_used (used s + 1) s)
    ∧ auth_files p' = auth_files p
    ∧ 0 ≤ index p' < Z.of_nat (length (available_positions (states p) now))
    ∧ index p' ≤ count p.
Proof.
  intros Hpick.
  destruct (pick_inv _ _ _ _ Hpick) as (pos & s & Hs & Ha & -> & Hne & ->).
  exists pos, s. split; [exact Hs|]. split; [exact Ha|].
  split; [reflexivity|].
  split; [apply pick_state_alt|].
  split.
  { unfold auth_files; simpl. apply (auth_files_insert _ _ s); [exact Hs|].
    apply pick_state_record. }
  simpl.
  set (n := Z.of_nat (length (available_positions (states p) now))).
  assert (Hn : 0 < n).
  { subst n. destruct (available_positions (states p) now); [congruence|].
    simpl. lia. }
  pose proof (Z.mod_pos_bound (index p + 1) n Hn) as Hb.
  split; [exact Hb|].
  pose proof (available_positions_length_le (states p) now).
  unfold count. lia.
Qed.

Lemma pick_chooses_available_witness :
  ∃ pos s,
    states pool_ab !! pos = Some s
    ∧ available s 1000 = true
    ∧ states (pick pool_ab 1000).2
      = <[pos := pick_state (fresh_state rec_a) 1000]> (states pool_ab)
    ∧ pick_state (fresh_state rec_a) 1000
      = set_next_probe_after
          (if probation_successes s <? probation_target s
           then 1000 + 20 else next_probe_after s)
          (set_used (used s + 1) s)
    ∧ auth_files (pick pool_ab 1000).2 = auth_files pool_ab
    ∧ 0 ≤ index (pick pool_ab 1000).2
      < Z.of_nat (length (available_positions (states pool_ab) 1000))
    ∧ index (pick pool_ab 1000).2 ≤ count pool_ab.
Proof.
  apply (pick_chooses_available pool_ab (pick pool_ab 1000).2 1000
           (pick_state (fresh_state rec_a) 1000)).
  vm_compute. reflexivity.
Defined.

(** X5.  A token in probation is probed at most once per probe interval:
    right after [pick] has returned a state that is in probation, that
    state is unselectable until 20 seconds have passed. *)
Theorem pick_probation_spacing (p p' : Pool) (now : Z) (s' : AuthState) :
  pick p now = (Some s', p') →
  probation_successes s' < probation_target s' →
  next_probe_after s' = now + PROBATION_PROBE_INTERVAL_SECONDS
  ∧ ∃ pos, states p' !! pos = Some s'
           ∧ ∀ t, t < now + 20 → available s' t = false.
Proof.
  intros Hpick Hprob.
  destruct (pick_inv _ _ _ _ Hpick) as (pos & s & Hs & Ha & Hs' & _ & Hp').
  assert (Hst : states p' = <[pos := s']> (states p)) by (rewrite Hp'; reflexivity).
  rewrite pick_state_alt in Hs'.
  assert (Hps : probation_successes s' = probation_successes s
                ∧ probation_target s' = probation_target s)
    by (rewrite Hs'; split; reflexivity).
  destruct Hps as [Hps Hpt].
  assert (Hnpa : next_probe_after s' = now + 20).
  { rewrite Hs'. simpl.
    destruct (Z.ltb_spec (probation_successes s) (probation_target s)); lia. }
  split; [exact Hnpa|].
  exists pos. split.
  - rewrite Hst. apply list_lookup_insert_eq. eapply lookup_lt_Some. exact Hs.
  - intros t Ht. unfold available. rewrite Hnpa.
    apply Z.ltb_lt in Hprob, Ht. rewrite Hprob, Ht.
    destruct (t <? blacklist_until s'), (t <? cooldown_until s'); reflexivity.
Qed.

Lemma pick_probation_spacing_witness :
  next_probe_after (pick_state (mark_blacklist (fresh_state rec_a) 1000 "token_invalid") 2000)
  = 2000 + PROBATION_PROBE_INTERVAL_SECONDS
  ∧ ∃ pos, states (pick pool_blacklisted 2000).2 !! pos
           = Some (pick_state (mark_blacklist (fresh_state rec_a) 1000 "token_invalid") 2000)
           ∧ ∀ t, t < 2000 + 20 →
               available
                 (pick_state (mark_blacklist (fresh_state rec_a) 1000 "token_invalid") 2000)
                 t = false.
Proof.
  apply (pick_probation_spacing pool_blacklisted (pick pool_blacklisted 2000).2).
  - vm_compute. reflexivity.
  - vm_compute. reflexivity.
Defined.

(** *** Round robin over a healthy pool *)

Lemma healthy_available t s now :
  healthy t s → t ≤ now → available s now = true.
Proof.
  intros (Hb & Hc & Hp) Hnow. unfold available.
  destruct (Z.ltb_spec now (blacklist_until s)); [lia|].
  destruct (Z.ltb_spec now (cooldown_until s)); [lia|].
  destruct (Z.ltb_spec (probation_successes s) (probation_target s)); [lia|].
  reflexivity.
Qed.

Lemma available_from_all i sts now :
  Forall (λ s, available s now = true) sts →
  available_from i sts now = seq i (length sts).
Proof.
  intros Hall. revert i.
  induction Hall as [|s sts Hs _ IH]; intros i; simpl; [reflexivity|].
  rewrite Hs, IH. reflexivity.
Qed.

Lemma pick_state_healthy t s now :
  healthy t s → pick_state s now = set_used (used s + 1) s
                ∧ healthy t (pick_state s now).
Proof.
  intros (Hb & Hc & Hp). unfold pick_state; simpl.
  destruct (Z.ltb_spec (probation_successes s) (probation_target s)); [lia|].
  split; [reflexivity|]. repeat split; assumption.
Qed.

(** One [pick] on a pool whose states are all healthy. *)
Lemma pick_healthy p t now :
  Forall (healthy t) (states p) → t ≤ now → states p ≠ [] →
  let n := Z.of_nat (length (states p)) in
  ∃ s,
    states p !! Z.to_nat (index p `mod` n) = Some s
    ∧ pick p now
      = (Some (set_used (used s + 1) s),
         {| states := <[Z.to_nat (index p `mod` n) := set_used (used s + 1) s]>
                        (states p);
            index := (index p + 1) `mod` n |}).
Proof.
  intros Hall Hnow Hne n.
  assert (Hav : available_positions (states p) now = seq 0 (length (states p))).
  { apply available_from_all. eapply Forall_impl; [exact Hall|].
    intros s Hs. eapply healthy_available; eassumption. }
  assert (Hn : 0 < n) by (subst n; destruct (states p); [congruence | simpl; lia]).
  pose proof (Z.mod_pos_bound (index p) n Hn) as Hb.
  assert (Hne' : available_positions (states p) now ≠ []).
  { rewrite Hav. destruct (states p); [congruence | discriminate]. }
  destruct (pick_spec p now Hne') as (pos & s & Hpos & Hs & _ & Hp).
  rewrite Hav, length_seq in Hpos. fold n in Hpos.
  apply lookup_seq in Hpos as [-> _]. simpl in Hs.
  exists s. split; [exact Hs|].
  rewrite Hp, Hav, length_seq. fold n. simpl.
  rewrite Forall_lookup in Hall.
  destruct (pick_state_healthy t s now (Hall _ _ Hs)) as [-> _]. reflexivity.
Qed.

Lemma picks_names nows : ∀ p t,
  Forall (healthy t) (states p) → Forall (λ now, t ≤ now) nows →
  states p ≠ [] →
  let n := Z.of_nat (length (states p)) in
  (λ o : option AuthState, (λ s, name (record s)) <$> o) <$> (picks p nows).1
  = (λ j, auth_files p !! Z.to_nat ((index p + Z.of_nat j) `mod` n))
      <$> seq 0 (length nows).
Proof.
  induction nows as [|now nows IH]; intros p t Hall Ht Hne n; [reflexivity|].
  inversion Ht as [|? ? Hnow Hrest]; subst.
  destruct (pick_healthy p t now Hall Hnow Hne) as (s & Hs & Hp). fold n in Hs, Hp.
  set (k := Z.to_nat (index p `mod` n)) in *.
  set (s' := set_used (used s + 1) s) in *.
  set (p1 := {| states := <[k := s']> (states p); index := (index p + 1) `mod` n |}) in *.
  assert (Hfiles : auth_files p1 = auth_files p).
  { unfold auth_files. simpl. apply (auth_files_insert _ _ s); [exact Hs | reflexivity]. }
  assert (Hlen : length (states p1) = length (states p))
    by (simpl; apply length_insert).
  assert (Hall1 : Forall (healthy t) (states p1)).
  { simpl. apply Forall_insert; [exact Hall|].
    rewrite Forall_lookup in Hall. destruct (Hall _ _ Hs) as (? & ? & ?).
    repeat split; assumption. }
  assert (Hne1 : states p1 ≠ []).
  { intros E. apply (f_equal length) in E. rewrite Hlen in E.
    destruct (states p); [congruence | discriminate]. }
  specialize (IH p1 t Hall1 Hrest Hne1). cbv zeta in IH.
  rewrite Hlen, Hfiles in IH. fold n in IH.
  simpl picks. rewrite Hp.
  destruct (picks p1 nows) as [more p2] eqn:Hmore. simpl in IH. simpl fst.
  simpl length. rewrite <- cons_seq, <- fmap_S_seq. rewrite !fmap_cons.
  f_equal.
  - simpl. unfold auth_files. rewrite list_lookup_fmap.
    replace (index p + Z.of_nat 0) with (index p) by lia. fold k. rewrite Hs.
    reflexivity.
  - rewrite IH, <- list_fmap_compose. apply list_fmap_ext.
    intros j x _. simpl. f_equal. f_equal.
    rewrite Nat2Z.inj_succ. rewrite Zplus_mod_idemp_l. f_equal. lia.
Qed.

(** X6.  Round robin: on a pool whose states are all selectable and out of
    probation, the [j]-th of any number of successive [pick] calls
    returns the token at position [(cursor + j) mod n]; so [n] calls
    return every token once, in load order starting at the cursor. *)
Theorem picks_round_robin (p : Pool) (t : Z) (nows : list Z) :
  Forall (healthy t) (states p) →
  Forall (λ now, t ≤ now) nows →
  states p ≠ [] →
  let n := Z.of_nat (length (states p)) in
  let names :=
    (λ o : option AuthState, (λ s, name (record s)) <$> o)
      <$> (picks p nows).1 in
  names
  = (λ j, auth_files p !! Z.to_nat ((index p + Z.of_nat j) `mod` n))
      <$> seq 0 (length nows)
  ∧ (length nows = length (states p) →
     names = Some <$> rotate (Z.to_nat (index p `mod` n)) (auth_files p)).
Proof.
  intros Hall Ht Hne n names.
  assert (Hnames := picks_names nows p t Hall Ht Hne).
  cbv zeta in Hnames. fold n names in Hnames.
  split; [exact Hnames|].
  intros Hlen. rewrite Hnames, Hlen.
  assert (Hn : 0 < n) by (subst n; destruct (states p); [congruence | simpl; lia]).
  pose proof (Z.mod_pos_bound (index p) n Hn) as Hb.
  assert (Hfl : length (auth_files p) = length (states p))
    by (unfold auth_files; apply length_fmap).
  apply list_eq. intros i.
  rewrite !list_lookup_fmap.
  destruct (decide (i < length (states p))%nat) as [Hi|Hi].
  - rewrite lookup_seq_lt by exact Hi. simpl.
    rewrite lookup_rotate_r by (rewrite Hfl; exact Hi).
    rewrite Hfl. unfold rotate_nat_add. fold n.
    rewrite Z2Nat.id by lia. rewrite Zplus_mod_idemp_l.
    destruct (auth_files p !! Z.to_nat ((index p + Z.of_nat i) `mod` n)) eqn:Hl;
      [reflexivity|].
    apply lookup_ge_None in Hl.
    pose proof (Z.mod_pos_bound (index p + Z.of_nat i) n Hn). subst n. lia.
  - rewrite lookup_seq_ge by lia. simpl.
    rewrite lookup_ge_None_2; [reflexivity|].
    rewrite length_rotate, Hfl. lia.
Qed.

Lemma picks_round_robin_witness :
  (λ o : option AuthState, (λ s, name (record s)) <$> o)
    <$> (picks pool_ab [1000; 1001; 1002]).1
  = [Some "a.json"; Some "b.json"; Some "a.json"].
Proof.
  refine (eq_trans (proj1 (picks_round_robin pool_ab 0 [1000; 1001; 1002] _ _ _)) _).
  - repeat constructor; vm_compute; discriminate.
  - repeat constructor; vm_compute; discriminate.
  - discriminate.
  - vm_compute. reflexivity.
Defined.

(** *** [load] *)

Lemma find_state_In auth_name sts s :
  find_state auth_name sts = Some s → s ∈ sts ∧ name (record s) = auth_name.
Proof.
  induction sts as [|x sts IH]; simpl; [discriminate|].
  destruct (decide (name (record x) = auth_name)) as [Heq|Hne].
  - intros [= <-]. split; [left | exact Heq].
  - intros H. destruct (IH H) as [Hin Hn]. split; [right; exact Hin | exact Hn].
Qed.

Lemma find_state_NoDup sts s :
  NoDup ((λ st, name (record st)) <$> sts) → s ∈ sts →
  find_state (name (record s)) sts = Some s.
Proof.
  induction sts as [|x sts IH]; simpl; intros Hnd Hin; [inversion Hin|].
  apply NoDup_cons in Hnd as [Hx Hnd].
  destruct (decide (name (record x) = name (record s))) as [Heq|Hne].
  - apply elem_of_cons in Hin as [->|Hin]; [reflexivity|].
    exfalso. apply Hx. rewrite Heq. apply list_elem_of_fmap. eauto.
  - apply elem_of_cons in Hin as [->|Hin]; [congruence|]. apply IH; assumption.
Qed.

Lemma previous_NoDup sts s :
  NoDup ((λ st, name (record st)) <$> sts) → s ∈ sts →
  previous sts !! name (record s) = Some s.
Proof.
  intros Hnd Hin. rewrite previous_lookup. apply find_state_NoDup.
  - rewrite fmap_reverse, reverse_Permutation. exact Hnd.
  - apply elem_of_reverse. exact Hin.
Qed.

Lemma previous_In sts auth_name s :
  previous sts !! auth_name = Some s → s ∈ sts ∧ name (record s) = auth_name.
Proof.
  rewrite previous_lookup. intros H. apply find_state_In in H as [Hin Hn].
  split; [apply elem_of_reverse; exact Hin | exact Hn].
Qed.

Lemma load_state_same prev_by_name s :
  prev_by_name !! name (record s) = Some s →
  load_state prev_by_name (record s) = s.
Proof.
  intros H. unfold load_state. rewrite H, String.eqb_refl.
  destruct s; reflexivity.
Qed.

(** X7.  Reloading the records the pool already holds changes no state when
    the names are distinct (as file names are): every timer, counter
    and probation field is carried over, and the cursor is only reduced
    modulo the size. *)
Theorem load_same_records (p : Pool) :
  NoDup (auth_files p) →
  states (load p (record <$> states p)) = states p
  ∧ index (load p (record <$> states p))
    = (if decide (states p = []) then 0
       else index p `mod` Z.of_nat (length (states p))).
Proof.
  intros Hnd.
  assert (Hst : load_state (previous (states p)) <$> (record <$> states p)
                = states p).
  { rewrite <- list_fmap_compose. rewrite <- (list_fmap_id (states p)) at 3.
    apply list_fmap_ext. intros i s Hs. simpl.
    apply load_state_same. apply previous_NoDup; [exact Hnd|].
    eapply list_elem_of_lookup_2. exact Hs. }
  unfold load. simpl. rewrite Hst. split; [reflexivity|].
  destruct (states p); simpl; reflexivity.
Qed.

Lemma load_same_records_witness :
  states (load pool_blacklisted (record <$> states pool_blacklisted))
  = states pool_blacklisted
  ∧ index (load pool_blacklisted (record <$> states pool_blacklisted))
    = (if decide (states pool_blacklisted = []) then 0
       else index pool_blacklisted
              `mod` Z.of_nat (length (states pool_blacklisted))).
Proof.
  apply (load_same_records pool_blacklisted).
  apply (bool_decide_unpack _). vm_compute. exact I.
Defined.

(** The cursor after [load]. *)
Lemma load_index (p : Pool) (records : list AuthRecord) :
  (records = [] → index (load p records) = 0)
  ∧ (records ≠ [] → 0 ≤ index (load p records) < Z.of_nat (length records)).
Proof.
  unfold load; simpl. split.
  - intros ->. reflexivity.
  - intros Hne. destruct records as [|r rs]; [congruence|]. simpl.
    rewrite length_fmap. apply Z.mod_pos_bound. lia.
Qed.

(** X8.  After [load] the pool holds one state per record, in the order of
    the records; a record under a name the pool did not know gets the
    default state; and the cursor is a valid position (0 when the pool
    is empty). *)
Theorem load_shape (p : Pool) (records : list AuthRecord) :
  record <$> states (load p records) = records
  ∧ auth_files (load p records) = name <$> records
  ∧ count (load p records) = Z.of_nat (length records)
  ∧ (∀ i r, records !! i = Some r →
       name r ∉ auth_files p →
       states (load p records) !! i = Some (fresh_state r))
  ∧ (records = [] → index (load p records) = 0)
  ∧ (records ≠ [] → 0 ≤ index (load p records) < Z.of_nat (length records)).
Proof.
  assert (Hrec : ∀ m r, record (load_state m r) = r).
  { intros m r. unfold load_state. repeat case_match; reflexivity. }
  assert (Hrecs : record <$> states (load p records) = records).
  { unfold load; simpl. rewrite <- list_fmap_compose.
    rewrite <- (list_fmap_id records) at 2. apply list_fmap_ext.
    intros i r _. apply Hrec. }
  split; [exact Hrecs|].
  split.
  { unfold auth_files. rewrite <- Hrecs at 2. rewrite <- list_fmap_compose.
    reflexivity. }
  split; [unfold count, load; simpl; rewrite length_fmap; reflexivity|].
  split; [|apply load_index].
  intros i r Hr Hnew. rewrite load_lookup, Hr. simpl. f_equal.
  unfold load_state.
  destruct (previous (states p) !! name r) as [prev|] eqn:Hprev;
    [|reflexivity].
  exfalso. apply Hnew. apply previous_In in Hprev as [Hin Hn].
  unfold auth_files. apply list_elem_of_fmap. exists prev. split; [congruence | exact Hin].
Qed.

(** *** Outcomes *)

Lemma available_true s t :
  available s t = true ↔
  blacklist_until s ≤ t ∧ cooldown_until s ≤ t
  ∧ (probation_target s ≤ probation_successes s ∨ next_probe_after s ≤ t).
Proof.
  unfold available.
  destruct (Z.ltb_spec t (blacklist_until s)),
    (Z.ltb_spec t (cooldown_until s)),
    (Z.ltb_spec (probation_successes s) (probation_target s)),
    (Z.ltb_spec t (next_probe_after s)); simpl;
    split; intros; try discriminate; try reflexivity; lia.
Qed.

(** The classes of [mark_result], by status. *)
Lemma mark_result_state_cases status ec cs now s :
  (200 ≤ status < 400
   ∧ mark_result_state status ec cs now s = mark_success s now)
  ∨ ((status = 401 ∨ status = 403)
     ∧ mark_result_state status ec cs now s
       = mark_blacklist s now
           (or_default ec (if status =? 401 then "token_invalid" else "forbidden")))
  ∨ (status = 429
     ∧ mark_result_state status ec cs now s
       = mark_rate_limited s now (Z.max 1 <$> cs))
  ∨ (¬ 200 ≤ status < 400 ∧ status ≠ 401 ∧ status ≠ 403 ∧ status ≠ 429
     ∧ mark_result_state status ec cs now s = mark_transient_failure s now).
Proof.
  unfold mark_result_state.
  destruct (Z.leb_spec 200 status), (Z.ltb_spec status 400); simpl;
    try (left; split; [lia | reflexivity]);
    destruct (Z.eqb_spec status 401), (Z.eqb_spec status 403); simpl;
    try (right; left; split; [lia | reflexivity]);
    destruct (Z.eqb_spec status 429);
    try (right; right; left; split; [lia | subst; reflexivity]);
    right; right; right; (repeat split; [lia..|]);
    repeat case_match; reflexivity.
Qed.

(** X9.  A hard failure (401 or 403) takes the token out of selection for at
    least the base blacklist time of 15 minutes: until then it is
    unavailable and labelled BLACKLIST. *)
Theorem hard_failure_blocks (p : Pool) (auth_name : string) (s : AuthState)
    (status : Z) (error_code : option string) (cooldown_seconds : option Z)
    (now : Z) :
  find_state auth_name (states p) = Some s →
  status = 401 ∨ status = 403 →
  ∃ s',
    find_state auth_name
      (states (mark_result p auth_name status error_code cooldown_seconds now))
    = Some s'
    ∧ now + DEFAULT_BLACKLIST_SECONDS ≤ blacklist_until s'
    ∧ probation_successes s' = 0
    ∧ ∀ t, t < now + DEFAULT_BLACKLIST_SECONDS →
        available s' t = false ∧ Models.status s' t = "BLACKLIST".
Proof.
  intros Hfind Hstatus.
  rewrite find_state_mark_result, Hfind. simpl. eexists. split; [reflexivity|].
  rewrite (hard_failure_call_state _ _ _ _ _ Hstatus).
  match goal with
  | |- context [mark_blacklist s now ?r] =>
      destruct (mark_blacklist_fields s now r) as (_ & _ & Hbu & _ & _ & Hps & _);
      set (s' := mark_blacklist s now r) in *
  end.
  pose proof (blacklist_ttl_bounds (hard_failures s + 1)) as Httl.
  assert (Hlow : now + DEFAULT_BLACKLIST_SECONDS ≤ blacklist_until s')
    by (unfold DEFAULT_BLACKLIST_SECONDS; lia).
  split; [exact Hlow|]. split; [exact Hps|].
  intros t Ht. unfold available, Models.status.
  destruct (Z.ltb_spec t (blacklist_until s')); [|lia]. split; reflexivity.
Qed.

Lemma hard_failure_blocks_witness :
  ∃ s',
    find_state "a.json"
      (states (mark_result pool_ab "a.json" 403 None None 1000)) = Some s'
    ∧ 1000 + DEFAULT_BLACKLIST_SECONDS ≤ blacklist_until s'
    ∧ probation_successes s' = 0
    ∧ ∀ t, t < 1000 + DEFAULT_BLACKLIST_SECONDS →
        available s' t = false ∧ Models.status s' t = "BLACKLIST".
Proof.
  apply (hard_failure_blocks pool_ab "a.json" (fresh_state rec_a) 403 None None 1000).
  - vm_compute. reflexivity.
  - right. reflexivity.
Defined.

(** X10.  The reason recorded by a hard failure is the upstream error code
    when there is a non-empty one, and otherwise [token_invalid] for 401
    and [forbidden] for 403; it is never the empty string. *)
Theorem hard_failure_reason (s : AuthState) (status : Z)
    (error_code : option string) (cooldown_seconds : option Z) (now : Z) :
  status = 401 ∨ status = 403 →
  ∃ reason,
    blacklist_reason (mark_result_state status error_code cooldown_seconds now s)
    = Some reason
    ∧ reason ≠ EmptyString
    ∧ (∀ code, error_code = Some code → code ≠ EmptyString → reason = code)
    ∧ (error_code = None ∨ error_code = Some EmptyString →
       reason = if status =? 401 then "token_invalid" else "forbidden").
Proof.
  intros Hstatus. rewrite (hard_failure_call_state _ _ _ _ _ Hstatus).
  eexists. split; [reflexivity|].
  split; [|split].
  - destruct error_code as [[|c rest]|]; simpl;
      destruct Hstatus as [-> | ->]; discriminate.
  - intros code -> Hcode. destruct code; [congruence | reflexivity].
  - intros [-> | ->]; reflexivity.
Qed.

Lemma hard_failure_reason_witness :
  ∃ reason,
    blacklist_reason
      (mark_result_state 401 (Some "token_expired") None 1000 (fresh_state rec_a))
    = Some reason
    ∧ reason ≠ EmptyString
    ∧ (∀ code, Some "token_expired" = Some code → code ≠ EmptyString →
         reason = code)
    ∧ (Some "token_expired" = None ∨ Some "token_expired" = Some EmptyString →
       reason = if 401 =? 401 then "token_invalid" else "forbidden").
Proof.
  apply (hard_failure_reason (fresh_state rec_a) 401 (Some "token_expired") None 1000).
  left. reflexivity.
Defined.

(** X11.  Any result that is not a success (status outside 200..399) counts
    as an error and never shortens a penalty: [errors] grows, the two
    timers do not decrease, and [used] and the record are untouched. *)
Theorem failure_monotone (s : AuthState) (status : Z)
    (error_code : option string) (cooldown_seconds : option Z) (now : Z) :
  ¬ 200 ≤ status < 400 →
  let s' := mark_result_state status error_code cooldown_seconds now s in
  errors s < errors s'
  ∧ cooldown_until s ≤ cooldown_until s'
  ∧ blacklist_until s ≤ blacklist_until s'
  ∧ hard_failures s ≤ hard_failures s'
  ∧ used s' = used s
  ∧ record s' = record s.
Proof.
  intros Hfail s'. subst s'.
  destruct (mark_result_state_cases status error_code cooldown_seconds now s)
    as [[Hs _] | [[_ ->] | [[_ ->] | (_ & _ & _ & _ & ->)]]]; [contradiction| | |].
  - match goal with
    | |- context [mark_blacklist s now ?r] =>
        destruct (mark_blacklist_fields s now r)
          as (He & Hhf & Hbu & _ & _ & _ & _ & Hcu & _ & Hu)
    end.
    cbv zeta in *. rewrite He, Hhf, Hbu, Hcu, Hu. repeat split; lia.
  - unfold mark_rate_limited.
    set (s1 := rate_limited_cooldown s now (Z.max 1 <$> cooldown_seconds)).
    assert (H1 : errors s1 = errors s + 1 ∧ cooldown_until s ≤ cooldown_until s1
                 ∧ blacklist_until s1 = blacklist_until s
                 ∧ hard_failures s1 = hard_failures s ∧ used s1 = used s
                 ∧ record s1 = record s).
    { subst s1. unfold rate_limited_cooldown; simpl. repeat split; lia. }
    destruct H1 as (He1 & Hcu1 & Hbu1 & Hhf1 & Hu1 & Hr1).
    destruct (5 <=? rate_limit_strikes s1).
    + destruct (mark_blacklist_fields s1 now "rate_limited_persistent")
        as (He & Hhf & Hbu & _ & _ & _ & _ & Hcu & _ & Hu).
      cbv zeta in *. rewrite He, Hhf, Hbu, Hcu, Hu.
      rewrite mark_blacklist_record. repeat split; try congruence; lia.
    + repeat split; try congruence; lia.
  - unfold mark_transient_failure; simpl. repeat split; lia.
Qed.

Lemma failure_monotone_witness :
  let s' := mark_result_state 502 (Some "upstream_request_failed") None 1000
              (fresh_state rec_a) in
  errors (fresh_state rec_a) < errors s'
  ∧ cooldown_until (fresh_state rec_a) ≤ cooldown_until s'
  ∧ blacklist_until (fresh_state rec_a) ≤ blacklist_until s'
  ∧ hard_failures (fresh_state rec_a) ≤ hard_failures s'
  ∧ used s' = used (fresh_state rec_a)
  ∧ record s' = record (fresh_state rec_a).
Proof.
  apply (failure_monotone (fresh_state rec_a) 502
           (Some "upstream_request_failed") None 1000).
  lia.
Defined.

(** X12.  Every status outside 200..399 other than 401, 403 and 429 (5xx, 408,
    404, the proxy's own 502 and 413, ...) is a transient failure: one
    more error and a cooldown of 8 seconds from now, nothing else; the
    token is selectable afterwards exactly when it was before and 8
    seconds have passed. *)
Theorem transient_failure_cooldown (s : AuthState) (status : Z)
    (error_code : option string) (cooldown_seconds : option Z) (now : Z) :
  ¬ 200 ≤ status < 400 → status ≠ 401 → status ≠ 403 → status ≠ 429 →
  let s' := mark_result_state status error_code cooldown_seconds now s in
  s' = set_cooldown_until (Z.max (cooldown_until s) (now + 8))
         (set_errors (errors s + 1) s)
  ∧ ∀ t, available s' t = true ↔ available s t = true ∧ now + 8 ≤ t.
Proof.
  intros H1 H2 H3 H4 s'. subst s'.
  destruct (mark_result_state_cases status error_code cooldown_seconds now s)
    as [[Hs _] | [[Hs _] | [[Hs _] | (_ & _ & _ & _ & ->)]]];
    [contradiction | lia | contradiction |].
  split; [reflexivity|].
  intros t. rewrite !available_true.
  unfold mark_transient_failure, DEFAULT_TRANSIENT_COOLDOWN_SECONDS; simpl.
  lia.
Qed.

Lemma transient_failure_cooldown_witness :
  let s' := mark_result_state 404 None None 1000 (fresh_state rec_a) in
  s' = set_cooldown_until (Z.max (cooldown_until (fresh_state rec_a)) (1000 + 8))
         (set_errors (errors (fresh_state rec_a) + 1) (fresh_state rec_a))
  ∧ ∀ t, available s' t = true
         ↔ available (fresh_state rec_a) t = true ∧ 1000 + 8 ≤ t.
Proof.
  apply (transient_failure_cooldown (fresh_state rec_a) 404 None None 1000); lia.
Defined.


(** *** The invariant of reachable pools *)

Lemma fresh_state_ok r : state_ok (fresh_state r).
Proof.
  unfold state_ok; simpl. repeat split; try lia; intros; lia.
Qed.

Lemma load_state_ok m r :
  (∀ prev, m !! name r = Some prev → state_ok prev) →
  state_ok (load_state m r).
Proof.
  intros Hm. unfold load_state.
  destruct (m !! name r) as [prev|] eqn:Hprev; [|apply fresh_state_ok].
  specialize (Hm prev eq_refl).
  destruct Hm as (Hpt & Hps & Hu & Hk & Hhf & Hout & Hin).
  destruct (String.eqb (token (record prev)) (token r)).
  - unfold state_ok; simpl. repeat split; try lia; try tauto.
  - unfold state_ok, PROBATION_SUCCESS_TARGET; simpl.
    repeat split; try lia; intros; lia.
Qed.

Lemma pick_state_ok s now :
  state_ok s → available s now = true → state_ok (pick_state s now).
Proof.
  intros (Hpt & Hps & Hu & Hk & Hhf & Hout & Hin) Ha.
  apply available_true in Ha.
  unfold pick_state, PROBATION_PROBE_INTERVAL_SECONDS; simpl.
  destruct (Z.ltb_spec (probation_successes s) (probation_target s)) as [Hlt|Hge];
    unfold state_ok; simpl.
  - destruct (Hin Hlt) as (Hr & Hh & Hb).
    repeat split; try lia; try assumption; intros; lia.
  - repeat split; try lia; try tauto.
Qed.

Lemma mark_blacklist_ok s now reason :
  state_ok s → state_ok (mark_blacklist s now reason).
Proof.
  intros (Hpt & Hps & Hu & Hk & Hhf & Hout & Hin).
  destruct (mark_blacklist_fields s now reason)
    as (He & Hh & Hbu & Hbr & Hpt' & Hps' & Hnpa & Hcu & Hk' & Hu').
  cbv zeta in *. unfold state_ok.
  rewrite He, Hh, Hbr, Hpt', Hps', Hnpa, Hk', Hu'.
  repeat split; try lia; eauto.
Qed.

Lemma mark_success_ok s now : state_ok s → state_ok (mark_success s now).
Proof.
  intros (Hpt & Hps & Hu & Hk & Hhf & Hout & Hin).
  unfold mark_success; simpl.
  destruct (Z.ltb_spec (probation_successes s) (probation_target s)) as [Hlt|Hge].
  - destruct (Hin Hlt) as (Hr & Hh & Hb). simpl.
    destruct (Z.leb_spec (probation_target s) (probation_successes s + 1));
      unfold state_ok; simpl; repeat split; try lia; try assumption;
      intros; lia.
  - destruct (Hout Hge) as (Hb & Hn).
    destruct (Z.leb_spec (blacklist_until s) now);
      unfold state_ok; simpl; repeat split; try lia; intros; lia.
Qed.

Lemma mark_result_state_ok status ec cs now s :
  state_ok s → state_ok (mark_result_state status ec cs now s).
Proof.
  intros Hok.
  destruct (mark_result_state_cases status ec cs now s)
    as [[_ ->] | [[_ ->] | [[_ ->] | (_ & _ & _ & _ & ->)]]].
  - apply mark_success_ok. exact Hok.
  - apply mark_blacklist_ok. exact Hok.
  - unfold mark_rate_limited.
    set (s1 := rate_limited_cooldown s now (Z.max 1 <$> cs)).
    assert (Hok1 : state_ok s1).
    { destruct Hok as (Hpt & Hps & Hu & Hk & Hhf & Hout & Hin).
      subst s1. unfold rate_limited_cooldown, state_ok; simpl.
      repeat split; try lia; try tauto. }
    destruct (5 <=? rate_limit_strikes s1);
      [apply mark_blacklist_ok|]; exact Hok1.
  - destruct Hok as (Hpt & Hps & Hu & Hk & Hhf & Hout & Hin).
    unfold mark_transient_failure, state_ok; simpl.
    repeat split; try lia; try tauto.
Qed.

Lemma mark_first_Forall (P : AuthState → Prop) auth_name f sts :
  (∀ s, P s → P (f s)) → Forall P sts → Forall P (mark_first auth_name f sts).
Proof.
  intros Hf. induction 1 as [|s sts Hs Hsts IH]; simpl; [constructor|].
  case_decide; constructor; auto.
Qed.

Lemma new_pool_ok : pool_ok empty_pool.
Proof. split; [constructor | simpl; lia]. Qed.

Lemma load_ok p records : pool_ok p → pool_ok (load p records).
Proof.
  intros (Hall & _ & _).
  destruct (load_index p records) as (Hnil & Hpos).
  assert (Hc : length (states (load p records)) = length records)
    by (unfold load; simpl; apply length_fmap).
  split; [|split].
  - unfold load; simpl. apply Forall_fmap, Forall_forall. intros r _.
    apply load_state_ok. intros prev Hprev.
    apply previous_In in Hprev as [Hin _].
    rewrite Forall_forall in Hall. auto.
  - destruct records; [rewrite Hnil by reflexivity; lia|].
    destruct Hpos; [discriminate | lia].
  - destruct records; [right; apply Hnil; reflexivity|].
    left. rewrite Hc. destruct Hpos; [discriminate | lia].
Qed.

Lemma pick_ok p now : pool_ok p → pool_ok (pick p now).2.
Proof.
  intros (Hall & Hix & Hrange).
  destruct (pick p now) as [[s'|] p'] eqn:Hpick; simpl.
  - destruct (pick_inv _ _ _ _ Hpick) as (pos & s & Hs & Ha & -> & Hne & ->).
    set (n := Z.of_nat (length (available_positions (states p) now))).
    assert (Hn : 0 < n).
    { subst n. destruct (available_positions (states p) now); [congruence|].
      simpl. lia. }
    pose proof (Z.mod_pos_bound (index p + 1) n Hn) as Hb.
    pose proof (available_positions_length_le (states p) now).
    split; [|split]; simpl.
    + apply Forall_insert; [exact Hall|].
      apply pick_state_ok; [|exact Ha].
      rewrite Forall_lookup in Hall. eauto.
    + lia.
    + left. rewrite length_insert. lia.
  - destruct (decide (available_positions (states p) now = [])) as [Hnil|Hne].
    + rewrite (pick_nil p now Hnil) in Hpick. injection Hpick as <-.
      split; [exact Hall | split; assumption].
    + destruct (pick_spec p now Hne) as (? & ? & _ & _ & _ & Hp).
      rewrite Hp in Hpick. discriminate.
Qed.

Lemma mark_result_ok p auth_name status ec cs now :
  pool_ok p → pool_ok (mark_result p auth_name status ec cs now).
Proof.
  intros (Hall & Hix & Hrange).
  unfold mark_result. split; [|split]; simpl.
  - apply mark_first_Forall; [|exact Hall].
    intros s. apply mark_result_state_ok.
  - exact Hix.
  - rewrite mark_first_length. exact Hrange.
Qed.

(** X14.  Every pool a program can reach keeps the counters non-negative and
    consistent ([rate_limit_strikes] and [hard_failures] never exceed
    [errors]), the probation target at 2 with the successes between 0
    and 2, no blacklist or probe timer on a state that is out of
    probation, a recorded reason on a state that is in probation, and
    the cursor at a valid position. *)
Theorem reachable_pool_ok (p : Pool) : reachable p → pool_ok p.
Proof.
  induction 1 as [|p records _ IH|p now _ IH|p n st ec cs now _ IH].
  - exact new_pool_ok.
  - apply load_ok. exact IH.
  - apply pick_ok. exact IH.
  - apply mark_result_ok. exact IH.
Qed.

Lemma reachable_pool_ok_witness : pool_ok pool_blacklisted.
Proof.
  apply (reachable_pool_ok pool_blacklisted).
  apply (reach_mark_result (load empty_pool [rec_a; rec_b]) "a.json" 401 None None 1000).
  apply reach_load. apply reach_new.
Defined.

(** X15.  In a reachable pool, a success (200..399) on a token that is not in
    probation makes it OK at once: cooldown, strikes and blacklist
    reason are cleared, the error counters are kept. *)
Theorem success_restores (p : Pool) (auth_name : string) (s : AuthState)
    (status : Z) (error_code : option string) (cooldown_seconds : option Z)
    (now : Z) :
  reachable p →
  find_state auth_name (states p) = Some s →
  200 ≤ status < 400 →
  probation_target s ≤ probation_successes s →
  0 ≤ now →
  ∃ s',
    find_state auth_name
      (states (mark_result p auth_name status error_code cooldown_seconds now))
    = Some s'
    ∧ Models.status s' now = "OK"
    ∧ available s' now = true
    ∧ blacklist_reason s' = None
    ∧ cooldown_until s' = 0
    ∧ rate_limit_strikes s' = 0
    ∧ errors s' = errors s
    ∧ hard_failures s' = hard_failures s.
Proof.
  intros Hreach Hfind Hstatus Hout Hnow.
  assert (Hok : pool_ok p)
    by (clear - Hreach; induction Hreach;
        auto using new_pool_ok, load_ok, pick_ok, mark_result_ok).
  destruct Hok as (Hall & _).
  apply find_state_In in Hfind as Hin. destruct Hin as [Hin _].
  rewrite Forall_forall in Hall.
  destruct (Hall _ Hin) as (Hpt & Hps & _ & _ & _ & Hclear & _).
  destruct (Hclear Hout) as (Hbu & Hnpa).
  rewrite find_state_mark_result, Hfind. simpl. eexists. split; [reflexivity|].
  destruct (mark_result_state_cases status error_code cooldown_seconds now s)
    as [[_ ->] | [[Hs _] | [[Hs _] | (Hs & _)]]]; [|lia..].
  unfold mark_success; simpl.
  destruct (Z.ltb_spec (probation_successes s) (probation_target s)); [lia|].
  rewrite Hbu. destruct (Z.leb_spec 0 now); [|lia].
  unfold Models.status, available; simpl. rewrite Hbu.
  destruct (Z.ltb_spec now 0); [lia|].
  destruct (Z.ltb_spec (probation_successes s) (probation_target s)); [lia|].
  repeat split; reflexivity.
Qed.

Lemma success_restores_witness :
  ∃ s',
    find_state "a.json"
      (states (mark_result pool_four_strikes "a.json" 200 None None 1010))
    = Some s'
    ∧ Models.status s' 1010 = "OK"
    ∧ available s' 1010 = true
    ∧ blacklist_reason s' = None
    ∧ cooldown_until s' = 0
    ∧ rate_limit_strikes s' = 0
    ∧ errors s' = errors (foldl mark_call_state (fresh_state rec_a)
                            (replicate 4 (rate_limited_at 1000)))
    ∧ hard_failures s' = hard_failures (foldl mark_call_state (fresh_state rec_a)
                            (replicate 4 (rate_limited_at 1000))).
Proof.
  apply (success_restores pool_four_strikes "a.json"
           (foldl mark_call_state (fresh_state rec_a)
              (replicate 4 (rate_limited_at 1000))) 200 None None 1010).
  - unfold pool_four_strikes, mark_results. simpl.
    repeat apply reach_mark_result. apply reach_load. apply reach_new.
  - vm_compute. reflexivity.
  - lia.
  - vm_compute. discriminate.
  - lia.
Defined.

End RotationMore.

(** * Further properties: payloads and the ring buffer *)

Module TraceMore.
Import Trace TraceScenario TraceFacts.

Lemma deque_append_drop maxlen (q : list positive) x :
  Z.of_nat (length q) ≤ maxlen →
  deque_append maxlen q x
  = drop (length (q ++ [x]) - Z.to_nat maxlen) (q ++ [x]).
Proof.
  intros Hlen. unfold deque_append.
  destruct (Z.ltb_spec maxlen (Z.of_nat (length (q ++ [x])))) as [Hover|Hfit].
  - rewrite length_app in *. simpl in *.
    replace (length q + 1 - Z.to_nat maxlen)%nat with 1%nat by lia.
    destruct q; reflexivity.
  - rewrite length_app in *. simpl in *.
    replace (length q + 1 - Z.to_nat maxlen)%nat with 0%nat by lia.
    reflexivity.
Qed.

Lemma drop_window (q ps : list positive) (x : positive) (m : nat) :
  (length q ≤ m)%nat →
  let q1 := drop (length (q ++ [x]) - m) (q ++ [x]) in
  drop (length (q1 ++ ps) - m) (q1 ++ ps)
  = drop (length (q ++ x :: ps) - m) (q ++ x :: ps).
Proof.
  intros Hlen q1. subst q1.
  destruct (decide (length q + 1 ≤ m)%nat) as [Hfit|Hover].
  - replace (length (q ++ [x]) - m)%nat with 0%nat
      by (rewrite length_app; simpl; lia).
    change (drop 0 (q ++ [x])) with (q ++ [x]).
    rewrite <- (app_assoc q [x] ps). reflexivity.
  - assert (Hm : m = length q) by lia. subst m.
    replace (length (q ++ [x]) - length q)%nat with 1%nat
      by (rewrite length_app; simpl; lia).
    destruct q as [|y q].
    + simpl. rewrite Nat.sub_0_r. reflexivity.
    + change (drop 1 ((y :: q) ++ [x])) with (q ++ [x]).
      rewrite <- (app_assoc q [x] ps).
      change ([x] ++ ps) with (x :: ps).
      change ((y :: q) ++ x :: ps) with (y :: (q ++ x :: ps)).
      change (length (y :: q)) with (S (length q)).
      change (length (y :: q ++ x :: ps)) with (S (length (q ++ x :: ps))).
      replace (S (length (q ++ x :: ps)) - S (length q))%nat
        with (S (length (q ++ x :: ps) - S (length q)))
        by (rewrite length_app; simpl; lia).
      reflexivity.
Qed.

(** Successive adds in full: the buffer, the payloads and the rest of
    the store. *)
Lemma add_all_full events : ∀ h st q,
  valid h st →
  buffer h st = Some q →
  events_in h events →
  ∃ h' st' payloads,
    add_all h st events = Some (h', st', payloads)
    ∧ valid h' st'
    ∧ buffer h' st'
      = Some (drop (length (q ++ payloads) - Z.to_nat (max_size st))
                (q ++ payloads))
    ∧ items st' = items st
    ∧ max_size st' = max_size st
    ∧ (∀ l, l ≠ items st → is_Some (h !! l) → h' !! l = h !! l)
    ∧ (∀ i p, payloads !! i = Some p →
         h !! p = None
         ∧ ∃ event d,
             events !! i = Some event
             ∧ h !! event = Some (ODict d)
             ∧ h' !! p
               = Some (ODict (<["id" := PyInt (seq st + 1 + Z.of_nat i)]> d)))
    ∧ NoDup payloads.
Proof.
  induction events as [|event events IH]; intros h st q Hvalid Hq Hev.
  - exists h, st, []. simpl.
    split; [reflexivity|]. split; [exact Hvalid|].
    split.
    { rewrite app_nil_r. destruct Hvalid as (_ & q' & Hq' & Hlen).
      rewrite Hq in Hq'. injection Hq' as <-.
      replace (length q - Z.to_nat (max_size st))%nat with 0%nat by lia.
      exact Hq. }
    split; [reflexivity|]. split; [reflexivity|].
    split; [intros; reflexivity|].
    split; [intros i p Hp; discriminate | constructor].
  - inversion Hev as [|? ? [d Hd] Hrest]; subst.
    pose proof Hvalid as (Hmax & q' & Hq' & Hlen).
    rewrite Hq in Hq'. injection Hq' as <-.
    pose proof Hq as Hqi. apply buffer_lookup in Hqi.
    pose proof (add_spec h st event d q Hd Hqi) as Hadd. cbv zeta in Hadd.
    match type of Hadd with
    | _ = Some (?a, ?b, ?c) => set (h1 := a) in *; set (st1 := b) in *;
                               set (p := c) in *
    end.
    destruct (add_valid _ _ _ _ _ _ Hvalid Hadd)
      as (Hvalid1 & Hitems1 & Hmax1 & Hseq1).
    destruct (add_payload _ _ _ _ _ _ _ Hadd Hd) as (Hpnew & Hpe & Hpi & Hp1).
    assert (Hframe1 : ∀ l, l ≠ items st → is_Some (h !! l) → h1 !! l = h !! l)
      by (intros l; apply (add_frame _ _ _ _ _ _ l Hadd)).
    assert (Hev1 : events_in h1 events).
    { unfold events_in in *. eapply Forall_impl; [exact Hrest|].
      intros e [d' Hd']. exists d'. rewrite Hframe1; [exact Hd' | | eauto].
      intros E. rewrite E in Hd'. congruence. }
    assert (Hq1 : buffer h1 st1 = Some (deque_append (max_size st) q p)).
    { apply buffer_lookup. subst h1 st1. simpl. apply lookup_insert_eq. }
    assert (Hsub : ∀ l, is_Some (h !! l) → is_Some (h1 !! l)).
    { intros l Hl. destruct (decide (l = items st)) as [->|Hne].
      - apply buffer_lookup in Hq1. simpl in Hq1. eauto.
      - rewrite Hframe1; assumption. }
    destruct (IH h1 st1 _ Hvalid1 Hq1 Hev1)
      as (h2 & st2 & ps & Hall & Hvalid2 & Hbuf2 & Hitems2 & Hmax2 & Hframe2
          & Hps & Hnd).
    exists h2, st2, (p :: ps). simpl add_all. rewrite Hadd, Hall.
    split; [reflexivity|]. split; [exact Hvalid2|].
    split.
    { rewrite Hbuf2, Hmax1. f_equal.
      rewrite (deque_append_drop _ _ _ Hlen).
      apply drop_window. lia. }
    split; [congruence|]. split; [congruence|].
    split.
    { intros l Hl Hsome. rewrite Hframe2.
      - apply Hframe1; assumption.
      - rewrite Hitems1. exact Hl.
      - apply Hsub. exact Hsome. }
    split.
    { intros i p' Hp'. destruct i as [|i]; simpl in Hp'.
      - injection Hp' as <-. split; [exact Hpnew|].
        exists event, d. split; [reflexivity|]. split; [exact Hd|].
        rewrite Hframe2; [| rewrite Hitems1; exact Hpi | eauto].
        rewrite Hp1. f_equal. f_equal. f_equal. f_equal. lia.
      - destruct (Hps i p' Hp') as (Hnew & e & d' & He & Hd' & Hp2).
        split.
        { destruct (h !! p') as [o0|] eqn:Hh; [|reflexivity].
          destruct (Hsub p') as [o1 Ho]; [eauto|]. congruence. }
        exists e, d'. split; [exact He|].
        assert (Hein : ∃ d0, h !! e = Some (ODict d0)).
        { unfold events_in in Hrest. rewrite Forall_lookup in Hrest. eauto. }
        destruct Hein as [d0 Hd0].
        assert (Hne : e ≠ items st) by (intros E; rewrite E in Hd0; congruence).
        rewrite Hframe1 in Hd' by eauto. split; [exact Hd'|].
        rewrite Hp2, Hseq1. f_equal. f_equal. f_equal. f_equal. lia. }
    apply NoDup_cons. split; [|exact Hnd].
    intros Hin. apply list_elem_of_lookup in Hin as [i Hi].
    destruct (Hps i p Hi) as (Hnone & _). rewrite Hp1 in Hnone. discriminate.
Qed.

(** X16.  Every payload returned by a run of [add] calls is a new object,
    different from all the others, holding the entries of its event with
    ["id"] set to its sequence number (an ["id"] the event brought along
    is overwritten); the events themselves are left as they were. *)
Theorem add_all_payloads (h : gmap positive Obj) (st : TraceStore)
    (events : list positive) :
  valid h st →
  events_in h events →
  ∃ h' st' payloads,
    add_all h st events = Some (h', st', payloads)
    ∧ NoDup payloads
    ∧ (∀ i p, payloads !! i = Some p →
         h !! p = None
         ∧ ∃ event d,
             events !! i = Some event
             ∧ h !! event = Some (ODict d)
             ∧ h' !! p
               = Some (ODict (<["id" := PyInt (seq st + 1 + Z.of_nat i)]> d))
             ∧ ∀ d' key, h' !! p = Some (ODict d') → key ≠ "id" →
                 d' !! key = d !! key)
    ∧ (∀ event, event ∈ events → h' !! event = h !! event).
Proof.
  intros Hvalid Hev.
  pose proof Hvalid as (_ & q & Hq & _).
  destruct (add_all_full events h st q Hvalid Hq Hev)
    as (h' & st' & ps & Hall & _ & _ & _ & _ & Hframe & Hps & Hnd).
  exists h', st', ps. split; [exact Hall|]. split; [exact Hnd|].
  split.
  - intros i p Hp. destruct (Hps i p Hp) as (Hnew & e & d & He & Hd & Hp').
    split; [exact Hnew|]. exists e, d.
    split; [exact He|]. split; [exact Hd|]. split; [exact Hp'|].
    intros d' key Hd' Hkey. rewrite Hp' in Hd'. injection Hd' as <-.
    apply lookup_insert_ne. congruence.
  - intros e Hin. unfold events_in in Hev. rewrite Forall_forall in Hev.
    destruct (Hev e Hin) as [d Hd]. apply Hframe; [|eauto].
    apply buffer_lookup in Hq. intros E. rewrite E in Hd. congruence.
Qed.

Lemma add_all_payloads_witness :
  ∃ h' st' payloads,
    add_all store2.1 store2.2 [5; 6; 5]%positive = Some (h', st', payloads)
    ∧ NoDup payloads
    ∧ (∀ i p, payloads !! i = Some p →
         store2.1 !! p = None
         ∧ ∃ event d,
             [5; 6; 5]%positive !! i = Some event
             ∧ store2.1 !! event = Some (ODict d)
             ∧ h' !! p
               = Some (ODict (<["id" := PyInt (seq store2.2 + 1 + Z.of_nat i)]> d))
             ∧ ∀ d' key, h' !! p = Some (ODict d') → key ≠ "id" →
                 d' !! key = d !! key)
    ∧ (∀ event, event ∈ [5; 6; 5]%positive → h' !! event = store2.1 !! event).
Proof.
  apply (add_all_payloads store2.1 store2.2 [5; 6; 5]%positive).
  - split; [vm_compute; discriminate|].
    exists []. split; [vm_compute; reflexivity | simpl; lia].
  - repeat constructor; eexists; vm_compute; reflexivity.
Defined.

Lemma list_spec h st limit q :
  buffer h st = Some q →
  ∃ h' r,
    list_ h st limit = Some (h', r)
    ∧ h !! r = None
    ∧ h' !! r
      = Some (OList (if 0 <? limit
                     then drop (length q - Z.to_nat limit) q else q))
    ∧ ∀ l, is_Some (h !! l) → h' !! l = h !! l.
Proof.
  intros Hq. apply buffer_lookup in Hq. unfold list_, alloc. rewrite Hq.
  set (c := fresh (dom h)).
  assert (Hc : h !! c = None) by apply fresh_not_in.
  destruct (0 <? limit).
  - set (h1 := <[c := OList q]> h). set (r := fresh (dom h1)).
    assert (Hr1 : h1 !! r = None) by apply fresh_not_in.
    assert (Hrc : r ≠ c).
    { intros E. rewrite E in Hr1. subst h1. rewrite lookup_insert_eq in Hr1.
      discriminate. }
    assert (Hr : h !! r = None).
    { subst h1. rewrite lookup_insert_ne in Hr1 by congruence. exact Hr1. }
    do 2 eexists. split; [reflexivity|]. split; [exact Hr|].
    split; [apply lookup_insert_eq|].
    intros l [o Ho]. subst h1. rewrite !lookup_insert_ne; congruence.
  - do 2 eexists. split; [reflexivity|]. split; [exact Hc|].
    split; [apply lookup_insert_eq|].
    intros l [o Ho]. rewrite lookup_insert_ne; congruence.
Qed.

Lemma drop_ids (h : gmap positive Obj) (ps : list positive) (k : nat) :
  id_of h <$> ps
  = (λ z, Some (PyInt z)) <$> seqZ 1 (Z.of_nat (length ps)) →
  id_of h <$> drop k ps
  = (λ z, Some (PyInt z))
      <$> seqZ (1 + Z.of_nat (k `min` length ps))
            (Z.of_nat (length ps - k)).
Proof.
  intros Hids. apply list_eq. intros j.
  rewrite list_lookup_fmap, lookup_drop, <- list_lookup_fmap, Hids.
  rewrite !list_lookup_fmap.
  destruct (decide (k + j < length ps)%nat) as [Hlt|Hge].
  - rewrite !lookup_seqZ_lt by lia. do 2 f_equal. lia.
  - rewrite !lookup_seqZ_ge by lia. reflexivity.
Qed.

(** Adds on a new store: the payloads with their ids, and the buffer as
    a window over them. *)
Lemma add_all_new_store (h0 : gmap positive Obj) (m : Z)
    (events : list positive) :
  events_in h0 events →
  ∃ h' st' payloads,
    add_all (init h0 m).1 (init h0 m).2 events = Some (h', st', payloads)
    ∧ buffer h' st'
      = Some (drop (length payloads - Z.to_nat (Z.max 1 m)) payloads)
    ∧ length payloads = length events
    ∧ id_of h' <$> payloads
      = (λ z, Some (PyInt z)) <$> seqZ 1 (Z.of_nat (length payloads)).
Proof.
  intros Hev.
  pose proof (init_spec h0 m) as Hinit.
  destruct (init h0 m) as [h st] eqn:Hi. simpl.
  destruct Hinit as (Hvalid & Hseq & Hmax & Hbuf & _ & Hframe).
  pose proof (events_in_frame _ _ _ Hframe Hev) as Hev'.
  destruct (add_all_spec events h st Hvalid Hev')
    as (h' & st' & ps & Hall & _ & _ & _ & _ & Hids & _).
  destruct (add_all_full events h st [] Hvalid Hbuf Hev')
    as (h2 & st2 & ps2 & Hall2 & _ & Hbuf2 & _).
  rewrite Hall in Hall2. injection Hall2 as <- <- <-.
  simpl in Hbuf2. rewrite Hmax in Hbuf2. rewrite Hseq in Hids. simpl in Hids.
  assert (Hlen : length ps = length events).
  { apply (f_equal length) in Hids. rewrite !length_fmap, length_seqZ in Hids.
    lia. }
  exists h', st', ps.
  split; [exact Hall|]. split; [exact Hbuf2|]. split; [exact Hlen|].
  rewrite Hlen. exact Hids.
Qed.

(** X17.  The ring buffer keeps the newest events: after [n] adds on a new
    store of capacity [max 1 m] it holds the last [min n capacity]
    payloads, oldest first, and so the ids [n - kept + 1 .. n]. *)
Theorem ring_buffer_keeps_newest (h0 : gmap positive Obj) (m : Z)
    (events : list positive) :
  events_in h0 events →
  let n := Z.of_nat (length events) in
  let kept := Z.min n (Z.max 1 m) in
  ∃ h' st' payloads q,
    add_all (init h0 m).1 (init h0 m).2 events = Some (h', st', payloads)
    ∧ buffer h' st' = Some q
    ∧ q = drop (length payloads - Z.to_nat (Z.max 1 m)) payloads
    ∧ Z.of_nat (length q) = kept
    ∧ id_of h' <$> q = (λ z, Some (PyInt z)) <$> seqZ (n - kept + 1) kept.
Proof.
  intros Hev n kept.
  destruct (add_all_new_store h0 m events Hev)
    as (h' & st' & ps & Hall & Hbuf & Hlen & Hids).
  exists h', st', ps, (drop (length ps - Z.to_nat (Z.max 1 m)) ps).
  split; [exact Hall|]. split; [exact Hbuf|]. split; [reflexivity|].
  split; [rewrite length_drop; subst kept n; lia|].
  rewrite (drop_ids _ _ _ Hids).
  f_equal. f_equal; subst kept n; lia.
Qed.

Lemma ring_buffer_keeps_newest_witness :
  ∃ h' st' payloads q,
    add_all store2.1 store2.2 [5; 6; 5]%positive = Some (h', st', payloads)
    ∧ buffer h' st' = Some q
    ∧ q = drop (length payloads - Z.to_nat (Z.max 1 2)) payloads
    ∧ Z.of_nat (length q) = 2
    ∧ id_of h' <$> q = [Some (PyInt 2); Some (PyInt 3)].
Proof.
  apply (ring_buffer_keeps_newest caller_heap 2 [5; 6; 5]%positive).
  repeat constructor; eexists; vm_compute; reflexivity.
Defined.

(** X18.  What [list] shows after [n] adds on a new store: with [limit > 0]
    the newest [min limit kept] events, otherwise all [kept] buffered
    ones, oldest first; the list is a new object. *)
Theorem list_newest (h0 : gmap positive Obj) (m : Z) (events : list positive)
    (limit : Z) :
  events_in h0 events →
  let n := Z.of_nat (length events) in
  let kept := Z.min n (Z.max 1 m) in
  let shown := if 0 <? limit then Z.min limit kept else kept in
  ∃ h' st' payloads h'' r l,
    add_all (init h0 m).1 (init h0 m).2 events = Some (h', st', payloads)
    ∧ list_ h' st' limit = Some (h'', r)
    ∧ h' !! r = None
    ∧ h'' !! r = Some (OList l)
    ∧ Z.of_nat (length l) = shown
    ∧ id_of h'' <$> l = (λ z, Some (PyInt z)) <$> seqZ (n - shown + 1) shown.
Proof.
  intros Hev n kept shown.
  destruct (add_all_new_store h0 m events Hev)
    as (h' & st' & ps & Hall & Hbuf & Hps & Hpids).
  set (q := drop (length ps - Z.to_nat (Z.max 1 m)) ps) in *.
  assert (Hlen : Z.of_nat (length q) = kept)
    by (subst q kept n; rewrite length_drop; lia).
  assert (Hids : id_of h' <$> q
                 = (λ z, Some (PyInt z)) <$> seqZ (n - kept + 1) kept).
  { subst q. rewrite (drop_ids _ _ _ Hpids).
    f_equal. f_equal; subst kept n; lia. }
  destruct (list_spec h' st' limit q Hbuf) as (h'' & r & Hlist & Hr & Hr' & Hframe).
  exists h', st', ps, h'', r.
  eexists. split; [exact Hall|]. split; [exact Hlist|]. split; [exact Hr|].
  split; [exact Hr'|].
  assert (Hsame : ∀ l0 : list positive,
             Forall (λ x, is_Some (id_of h' x)) l0 →
             id_of h'' <$> l0 = id_of h' <$> l0).
  { intros l0 Hl0. apply Forall_fmap_ext_1. eapply Forall_impl; [exact Hl0|].
    intros x [v Hv]. unfold id_of in *.
    destruct (h' !! x) as [o|] eqn:Hx; [|discriminate].
    rewrite Hframe by eauto. rewrite Hx. reflexivity. }
  assert (Hqsome : Forall (λ x, is_Some (id_of h' x)) q).
  { apply Forall_lookup. intros i x Hix.
    assert (Hi : (id_of h' <$> q) !! i = Some (id_of h' x))
      by (rewrite list_lookup_fmap, Hix; reflexivity).
    rewrite Hids, list_lookup_fmap in Hi.
    destruct (seqZ (n - kept + 1) kept !! i); simpl in Hi; [|discriminate].
    injection Hi as Hi. rewrite <- Hi. eauto. }
  subst shown. destruct (Z.ltb_spec 0 limit) as [Hpos|Hnon].
  - split; [rewrite length_drop; lia|].
    rewrite Hsame by (apply Forall_drop; exact Hqsome).
    apply list_eq. intros j.
    rewrite list_lookup_fmap, lookup_drop, <- list_lookup_fmap, Hids.
    rewrite !list_lookup_fmap.
    destruct (decide (Z.of_nat j < Z.min limit kept)) as [Hlt|Hge].
    + rewrite !lookup_seqZ_lt by lia. do 2 f_equal. lia.
    + rewrite !lookup_seqZ_ge by lia. reflexivity.
  - split; [exact Hlen|]. rewrite Hsame by exact Hqsome. exact Hids.
Qed.

Lemma list_newest_witness :
  ∃ h' st' payloads h'' r l,
    add_all store2.1 store2.2 [5; 6; 5]%positive = Some (h', st', payloads)
    ∧ list_ h' st' 1 = Some (h'', r)
    ∧ h' !! r = None
    ∧ h'' !! r = Some (OList l)
    ∧ Z.of_nat (length l) = 1
    ∧ id_of h'' <$> l = [Some (PyInt 3)].
Proof.
  apply (list_newest caller_heap 2 [5; 6; 5]%positive 1).
  repeat constructor; eexists; vm_compute; reflexivity.
Defined.

End TraceMore.

(** * Further properties: route labels and header rules *)

Module RulesMore.
Import Rules RulesFacts.

(** *** [trace_route] and [is_primary_responses_path] *)

Lemma before_query_idem s : before_query (before_query s) = before_query s.
Proof.
  induction s as [|c s IH]; simpl; [reflexivity|].
  destruct (Ascii.eqb c "?") eqn:Hc; simpl; [reflexivity|].
  rewrite Hc, IH. reflexivity.
Qed.

Lemma before_query_app o s :
  before_query o = o → before_query (o +:+ s) = o +:+ before_query s.
Proof.
  induction o as [|c o IH]; simpl; [reflexivity|].
  destruct (Ascii.eqb c "?"); [discriminate|].
  intros [= H]. rewrite (IH H). reflexivity.
Qed.

Lemma before_query_mark o q :
  before_query o = o → before_query (o +:+ String "?" q) = o.
Proof.
  intros H. rewrite (before_query_app o _ H). simpl. clear H.
  induction o as [|c o IH]; [reflexivity|].
  change (String c o +:+ EmptyString) with (String c (o +:+ EmptyString)).
  f_equal. exact IH.
Qed.

Lemma before_query_prefix s : startswith s (before_query s) = true.
Proof.
  induction s as [|c s IH]; simpl; [reflexivity|].
  destruct (Ascii.eqb c "?"); simpl; [reflexivity|].
  rewrite Ascii.eqb_refl. exact IH.
Qed.

(** X19.  [trace_route] answers one of its three labels and looks at the part
    of the path before the first question mark only: a query string
    never changes the label. *)
Theorem trace_route_ignores_query (path query : string) :
  (trace_route path = "compact" ∨ trace_route path = "request"
   ∨ trace_route path = "other")
  ∧ trace_route (before_query path) = trace_route path
  ∧ (before_query path = path →
     trace_route (path +:+ String "?" query) = trace_route path).
Proof.
  unfold trace_route. split; [|split].
  - repeat case_match; auto.
  - rewrite before_query_idem. reflexivity.
  - intros H. rewrite (before_query_mark _ _ H), H. reflexivity.
Qed.

Lemma trace_route_ignores_query_witness :
  trace_route ("/responses/compact" +:+ String "?" "x=1")
  = trace_route "/responses/compact".
Proof.
  apply (trace_route_ignores_query "/responses/compact" "x=1").
  reflexivity.
Defined.

Lemma startswith_before_query s o :
  before_query o = o → startswith s o = true →
  startswith (before_query s) o = true.
Proof.
  intros Ho [suffix ->]%startswith_app.
  rewrite (before_query_app _ _ Ho). apply startswith_app. eauto.
Qed.

(** X20.  Every request whose path [rewrite_request_path] changes is traced
    as [request] or [compact], never as [other]. *)
Theorem rewritten_is_traced (req_path : string) (upstream_host : option string)
    (upstream_base_path : string) :
  rewrite_request_path req_path upstream_host upstream_base_path ≠ req_path →
  trace_route req_path = "request" ∨ trace_route req_path = "compact".
Proof.
  unfold rewrite_request_path.
  destruct (decide _); [|congruence]. destruct (decide _); [|congruence].
  intros Hchanged.
  assert (Hc : contains (before_query req_path) "/responses" = true).
  { unfold PATH_REWRITE_PATTERNS, rewrite_with in Hchanged.
    repeat match type of Hchanged with
           | context [if startswith ?s ?o then _ else _] =>
               let H := fresh "Hm" in
               destruct (startswith s o) eqn:H;
                 [apply (startswith_before_query _ _ eq_refl) in H;
                  apply startswith_app in H as [suffix ->]; reflexivity|]
           end.
    congruence. }
  unfold trace_route. rewrite Hc. case_match; auto.
Qed.

Lemma rewritten_is_traced_witness :
  trace_route "/v1/responses?stream=1" = "request"
  ∨ trace_route "/v1/responses?stream=1" = "compact".
Proof.
  apply (rewritten_is_traced "/v1/responses?stream=1" (Some "chatgpt.com")
           "/backend-api").
  vm_compute. discriminate.
Defined.

Lemma before_query_startswith s o :
  before_query s = o → startswith s o = true.
Proof. intros <-. apply before_query_prefix. Qed.

Lemma append_empty_r s : s +:+ EmptyString = s.
Proof.
  induction s as [|c s IH]; [reflexivity|].
  change (String c s +:+ EmptyString) with (String c (s +:+ EmptyString)).
  f_equal. exact IH.
Qed.

(** X21.  For the privileged upstream, the rewritten path is the primary
    responses path (the test that switches header filtering on) exactly
    when the request path, without its query string, is [/responses],
    [/v1/responses] or [/codex/responses]. *)
Theorem primary_after_rewrite (req_path : string)
    (upstream_host : option string) (upstream_base_path : string) :
  lower (default EmptyString upstream_host) ∈ CHATGPT_HOSTS →
  rstrip_slash upstream_base_path = "/backend-api" →
  is_primary_responses_path
    (rewrite_request_path req_path upstream_host upstream_base_path) = true
  ↔ before_query req_path = "/responses"
    ∨ before_query req_path = "/v1/responses"
    ∨ before_query req_path = "/codex/responses".
Proof.
  intros Hhost Hbase. unfold rewrite_request_path.
  rewrite decide_True by exact Hhost. rewrite decide_True by exact Hbase.
  unfold is_primary_responses_path, PATH_REWRITE_PATTERNS, rewrite_with.
  destruct (startswith req_path "/v1/responses/compact") eqn:H1.
  { apply startswith_app in H1 as [suffix ->].
    rewrite drop_chars_app, !(before_query_app _ suffix eq_refl).
    split; [discriminate|]. intros [H | [H | H]]; discriminate H. }
  destruct (startswith req_path "/responses/compact") eqn:H2.
  { apply startswith_app in H2 as [suffix ->].
    rewrite drop_chars_app, !(before_query_app _ suffix eq_refl).
    split; [discriminate|]. intros [H | [H | H]]; discriminate H. }
  destruct (startswith req_path "/v1/responses") eqn:H3.
  { apply startswith_app in H3 as [suffix ->].
    rewrite drop_chars_app, !(before_query_app _ suffix eq_refl).
    destruct (before_query suffix) as [|c rest]; simpl.
    - split; [auto | reflexivity].
    - split; [discriminate|]. intros [H | [H | H]]; discriminate H. }
  destruct (startswith req_path "/responses") eqn:H4.
  { apply startswith_app in H4 as [suffix ->].
    rewrite drop_chars_app, !(before_query_app _ suffix eq_refl).
    destruct (before_query suffix) as [|c rest]; simpl.
    - split; [auto | reflexivity].
    - split; [discriminate|]. intros [H | [H | H]]; discriminate H. }
  rewrite String.eqb_eq. split; [auto|].
  intros [H | [H | H]]; [| |exact H];
    apply before_query_startswith in H; congruence.
Qed.

Lemma primary_after_rewrite_witness :
  is_primary_responses_path
    (rewrite_request_path "/v1/responses?stream=1" (Some "chatgpt.com")
       "/backend-api") = true.
Proof.
  apply (primary_after_rewrite "/v1/responses?stream=1" (Some "chatgpt.com")
           "/backend-api").
  - apply (bool_decide_unpack _). vm_compute. exact I.
  - vm_compute. reflexivity.
  - right. left. vm_compute. reflexivity.
Defined.

(** *** Header dicts *)

Lemma dict_pop_first pre key v post :
  Forall (λ kv : string * string, kv.1 ≠ key) pre →
  dict_pop key (pre ++ (key, v) :: post) = pre ++ post.
Proof.
  induction 1 as [|[k w] pre Hk _ IH]; simpl.
  - rewrite String.eqb_refl. reflexivity.
  - simpl in Hk. apply String.eqb_neq in Hk. rewrite Hk, IH. reflexivity.
Qed.

Lemma dict_set_new key value headers :
  key ∉ headers.*1 → dict_set key value headers = headers ++ [(key, value)].
Proof.
  induction headers as [|[k w] headers IH]; simpl; intros Hnew; [reflexivity|].
  apply not_elem_of_cons in Hnew as [Hne Hnew].
  assert (Hk : String.eqb k key = false) by (apply String.eqb_neq; congruence).
  rewrite Hk, (IH Hnew). reflexivity.
Qed.

Lemma find_first_match (f : string → bool) pre k post :
  Forall (λ x, f x = false) pre → f k = true →
  List.find f (pre ++ k :: post) = Some k.
Proof.
  induction 1 as [|x pre Hx _ IH]; simpl; intros Hk.
  - rewrite Hk. reflexivity.
  - rewrite Hx. apply IH. exact Hk.
Qed.

Lemma find_no_match (f : string → bool) l :
  Forall (λ x, f x = false) l → List.find f l = None.
Proof.
  induction 1 as [|x l Hx _ IH]; simpl; [reflexivity|]. rewrite Hx. exact IH.
Qed.

Lemma drop_header_none headers key :
  Forall (λ kv : string * string, lower kv.1 ≠ lower key) headers →
  drop_header_case_insensitive headers key = headers.
Proof.
  intros Hnone. unfold drop_header_case_insensitive.
  rewrite find_no_match; [reflexivity|].
  apply Forall_fmap. eapply Forall_impl; [exact Hnone|].
  intros [k v] Hk. simpl in *. apply String.eqb_neq. exact Hk.
Qed.

Lemma drop_header_match pre existing v post key :
  lower existing = lower key →
  Forall (λ kv : string * string, lower kv.1 ≠ lower key) pre →
  drop_header_case_insensitive (pre ++ (existing, v) :: post) key = pre ++ post.
Proof.
  intros Hmatch Hpre. unfold drop_header_case_insensitive.
  rewrite fmap_app, fmap_cons. simpl.
  rewrite (find_first_match _ (pre.*1) existing (post.*1)).
  - apply dict_pop_first. eapply Forall_impl; [exact Hpre|].
    intros [k w] Hk. simpl in *. congruence.
  - apply Forall_fmap. eapply Forall_impl; [exact Hpre|].
    intros [k w] Hk. simpl in *. apply String.eqb_neq. exact Hk.
  - apply String.eqb_eq. exact Hmatch.
Qed.

Lemma drop_header_cases headers key :
  Forall (λ kv : string * string, lower kv.1 ≠ lower key) headers
  ∨ ∃ pre existing v post,
      headers = pre ++ (existing, v) :: post
      ∧ lower existing = lower key
      ∧ Forall (λ kv : string * string, lower kv.1 ≠ lower key) pre.
Proof.
  induction headers as [|[k v] headers IH]; [left; constructor|].
  destruct (decide (lower k = lower key)) as [Heq|Hne].
  - right. exists [], k, v, headers. split; [reflexivity|].
    split; [exact Heq | constructor].
  - destruct IH as [Hnone | (pre & e & w & post & -> & He & Hpre)].
    + left. constructor; assumption.
    + right. exists ((k, v) :: pre), e, w, post.
      split; [reflexivity|]. split; [exact He|]. constructor; assumption.
Qed.

(** X22.  [drop_header_case_insensitive] removes the first header whose name
    equals [key] up to case, and only that one; without such a header it
    changes nothing.  So at most one header goes, and what is left is the
    rest of the dict in its order. *)
Theorem drop_header_first (headers : list (string * string)) (key : string) :
  (Forall (λ kv, lower kv.1 ≠ lower key) headers →
   drop_header_case_insensitive headers key = headers)
  ∧ (∀ pre existing v post,
       headers = pre ++ (existing, v) :: post →
       lower existing = lower key →
       Forall (λ kv, lower kv.1 ≠ lower key) pre →
       drop_header_case_insensitive headers key = pre ++ post)
  ∧ drop_header_case_insensitive headers key `sublist_of` headers
  ∧ (length headers ≤ length (drop_header_case_insensitive headers key) + 1)%nat.
Proof.
  split; [apply drop_header_none|].
  split; [intros pre existing v post -> He Hpre; apply drop_header_match; assumption|].
  destruct (drop_header_cases headers key)
    as [Hall | (pre & e & w & post & -> & He & Hpre)].
  - rewrite (drop_header_none _ _ Hall). split; [reflexivity | lia].
  - rewrite (drop_header_match _ _ _ _ _ He Hpre). split.
    + apply sublist_app; [reflexivity|]. apply sublist_cons. reflexivity.
    + rewrite !length_app. simpl. lia.
Qed.

Lemma drop_header_first_witness :
  drop_header_case_insensitive
    ([("Accept", "*/*")] ++ ("content-type", "text/plain")
       :: [("Content-Type", "application/json")]) "Content-Type"
  = [("Accept", "*/*")] ++ [("Content-Type", "application/json")].
Proof.
  apply (proj1 (proj2 (drop_header_first _ "Content-Type"))
           [("Accept", "*/*")] "content-type" "text/plain"
           [("Content-Type", "application/json")]).
  - reflexivity.
  - vm_compute. reflexivity.
  - repeat constructor. vm_compute. discriminate.
Defined.

Lemma dict_set_filter (P : string * string → Prop) `{∀ x, Decision (P x)}
    key value headers :
  (∀ v, ¬ P (key, v)) →
  filter P (dict_set key value headers) = filter P headers.
Proof.
  intros Hkey. induction headers as [|[k w] headers IH]; simpl.
  - rewrite filter_cons_False by apply Hkey. reflexivity.
  - destruct (String.eqb k key) eqn:Hk.
    + apply String.eqb_eq in Hk as ->.
      rewrite !filter_cons_False by apply Hkey. reflexivity.
    + rewrite !filter_cons. rewrite IH. reflexivity.
Qed.

Lemma dict_set_In key value headers : (key, value) ∈ dict_set key value headers.
Proof.
  induction headers as [|[k w] headers IH]; simpl; [left|].
  destruct (String.eqb k key) eqn:Hk.
  - apply String.eqb_eq in Hk as ->. left.
  - right. exact IH.
Qed.

Lemma dict_set_match key value headers :
  Forall (λ kv : string * string, lower kv.1 ≠ lower key) headers →
  filter (λ kv, lower kv.1 = lower key) (dict_set key value headers)
  = [(key, value)].
Proof.
  induction 1 as [|[k w] headers Hk _ IH]; simpl.
  - rewrite filter_cons_True by reflexivity. reflexivity.
  - simpl in Hk.
    assert (Hne : String.eqb k key = false)
      by (apply String.eqb_neq; congruence).
    rewrite Hne, filter_cons_False by exact Hk. exact IH.
Qed.

(** X23.  [set_header_case_insensitive] stores the header under [key]; the
    headers of every other name are kept, in order; and when at most one
    header carried the name up to case before, exactly one does after:
    the one just set. *)
Theorem set_header_replaces (headers : list (string * string))
    (key value : string) :
  let headers' := set_header_case_insensitive headers key value in
  (key, value) ∈ headers'
  ∧ filter (λ kv, lower kv.1 ≠ lower key) headers'
    = filter (λ kv, lower kv.1 ≠ lower key) headers
  ∧ ((length (filter (λ kv, lower kv.1 = lower key) headers) ≤ 1)%nat →
     filter (λ kv, lower kv.1 = lower key) headers' = [(key, value)]).
Proof.
  intros headers'. subst headers'. unfold set_header_case_insensitive.
  split; [apply dict_set_In|].
  destruct (drop_header_cases headers key)
    as [Hall | (pre & e & w & post & -> & He & Hpre)].
  - rewrite (drop_header_none _ _ Hall). split.
    + apply dict_set_filter. intros v Hv. apply Hv. reflexivity.
    + intros _. apply dict_set_match. exact Hall.
  - rewrite (drop_header_match _ _ _ _ _ He Hpre). split.
    + rewrite dict_set_filter by (intros v Hv; apply Hv; reflexivity).
      rewrite !filter_app, filter_cons_False by (intros Hv; apply Hv; exact He).
      reflexivity.
    + rewrite filter_app, filter_cons_True by exact He.
      rewrite length_app. simpl. intros Hlen.
      apply dict_set_match. apply Forall_app. split; [exact Hpre|].
      assert (Hnil : filter (λ kv : string * string, lower kv.1 = lower key) post = [])
        by (apply length_zero_iff_nil; lia).
      apply Forall_forall. intros kv Hin Hkv.
      assert (Hin' : kv ∈ filter (λ kv : string * string, lower kv.1 = lower key) post)
        by (apply list_elem_of_filter; split; assumption).
      rewrite Hnil in Hin'. inversion Hin'.
Qed.

Lemma set_header_replaces_witness :
  filter (λ kv, lower kv.1 = lower "Authorization")
    (set_header_case_insensitive
       [("Accept", "*/*"); ("authorization", "Bearer client")]
       "Authorization" "Bearer pool")
  = [("Authorization", "Bearer pool")].
Proof.
  apply (set_header_replaces
           [("Accept", "*/*"); ("authorization", "Bearer client")]
           "Authorization" "Bearer pool").
  vm_compute. lia.
Defined.

(** *** [build_forward_headers] *)

Lemma build_from acc incoming mode :
  NoDup incoming.*1 →
  (∀ k, k ∈ acc.*1 → k ∉ incoming.*1) →
  foldl (λ headers kv,
           if forwarded mode kv.1 then dict_set kv.1 kv.2 headers else headers)
    acc incoming
  = acc ++ filter (λ kv, forwarded mode kv.1 = true) incoming.
Proof.
  revert acc. induction incoming as [|[k v] incoming IH]; intros acc Hnd Hdis.
  - simpl. rewrite filter_nil, app_nil_r. reflexivity.
  - rewrite fmap_cons in Hnd, Hdis. simpl in Hnd, Hdis.
    apply NoDup_cons in Hnd as [Hk Hnd]. cbn [foldl fst snd].
    destruct (forwarded mode k) eqn:Hf.
    + rewrite filter_cons_True by exact Hf.
      rewrite dict_set_new.
      * rewrite IH; [rewrite <- app_assoc; reflexivity | exact Hnd |].
        intros k' Hk'. rewrite fmap_app in Hk'. simpl in Hk'.
        apply elem_of_app in Hk' as [Hk' | Hk'].
        -- specialize (Hdis k' Hk'). apply not_elem_of_cons in Hdis. tauto.
        -- apply list_elem_of_singleton in Hk'. subst k'. exact Hk.
      * intros Hin. specialize (Hdis k Hin). apply Hdis. left.
    + rewrite filter_cons_False by (simpl; rewrite Hf; discriminate).
      apply IH; [exact Hnd|].
      intros k' Hk'. specialize (Hdis k' Hk'). apply not_elem_of_cons in Hdis.
      tauto.
Qed.

Lemma forwarded_spec mode key :
  forwarded mode key = true →
  (lower key ∉ HOP_HEADERS)
  ∧ (mode = true →
     contains key "_" = false
     ∧ (lower key ∉ CHATGPT_RESPONSES_DROP_HEADERS)
     ∧ (lower key ∈ allowed_chatgpt_headers
        ∨ startswith (lower key) "x-openai-" = true
        ∨ startswith (lower key) "openai-" = true)).
Proof.
  unfold forwarded.
  destruct (bool_decide (lower key ∈ HOP_HEADERS)) eqn:Hhop; [discriminate|].
  apply bool_decide_eq_false in Hhop.
  destruct mode; simpl.
  - destruct (bool_decide (lower key ∈ CHATGPT_RESPONSES_DROP_HEADERS)) eqn:Hd;
      [discriminate|].
    apply bool_decide_eq_false in Hd. simpl.
    destruct (contains key "_") eqn:Hu; [discriminate|].
    intros H. split; [exact Hhop|]. intros _.
    split; [reflexivity|]. split; [exact Hd|].
    apply orb_true_iff in H as [H | H]; [|auto].
    apply orb_true_iff in H as [H | H]; [|auto].
    left. apply bool_decide_eq_true in H. exact H.
  - intros _. split; [exact Hhop | discriminate].
Qed.

(** X24.  The headers forwarded upstream are a selection of the incoming ones,
    in order and with their values.  The hop-by-hop headers ([host],
    [content-length], [connection], [transfer-encoding], in any case)
    are never among them.  In responses mode only [accept],
    [content-type], [content-encoding], [user-agent] and the
    [x-openai-]/[openai-] families pass, and none with an underscore in
    its name; outside that mode everything but the hop-by-hop headers
    passes. *)
Theorem forward_headers_selection (incoming_headers : list (string * string))
    (chatgpt_responses_mode : bool) :
  NoDup incoming_headers.*1 →
  let headers := build_forward_headers incoming_headers chatgpt_responses_mode in
  headers
  = filter (λ kv, forwarded chatgpt_responses_mode kv.1 = true) incoming_headers
  ∧ headers `sublist_of` incoming_headers
  ∧ (∀ key value, (key, value) ∈ headers → lower key ∉ HOP_HEADERS)
  ∧ (chatgpt_responses_mode = true →
     ∀ key value, (key, value) ∈ headers →
       contains key "_" = false
       ∧ (lower key ∉ CHATGPT_RESPONSES_DROP_HEADERS)
       ∧ (lower key ∈ allowed_chatgpt_headers
          ∨ startswith (lower key) "x-openai-" = true
          ∨ startswith (lower key) "openai-" = true))
  ∧ (chatgpt_responses_mode = false →
     ∀ key value, (key, value) ∈ incoming_headers →
       lower key ∉ HOP_HEADERS → (key, value) ∈ headers).
Proof.
  intros Hnd headers.
  assert (Hfilter : headers
                    = filter (λ kv, forwarded chatgpt_responses_mode kv.1 = true)
                        incoming_headers).
  { subst headers. unfold build_forward_headers.
    rewrite build_from; [reflexivity | exact Hnd |].
    intros k Hk. inversion Hk. }
  split; [exact Hfilter|]. rewrite Hfilter.
  split; [apply sublist_filter|].
  split; [|split].
  - intros key value [Hf _]%list_elem_of_filter. simpl in Hf.
    apply forwarded_spec in Hf. tauto.
  - intros Hmode key value [Hf _]%list_elem_of_filter. simpl in Hf.
    apply forwarded_spec in Hf as [_ Hf]. auto.
  - intros -> key value Hin Hhop. apply list_elem_of_filter.
    split; [|exact Hin]. simpl. unfold forwarded.
    rewrite bool_decide_eq_false_2 by exact Hhop. reflexivity.
Qed.

Lemma forward_headers_selection_witness :
  build_forward_headers
    [("Host", "127.0.0.1"); ("Accept", "*/*"); ("Authorization", "Bearer c");
     ("X-OpenAI-Foo", "1"); ("x-openai-a_b", "2"); ("session_id", "s")] true
  = filter (λ kv, forwarded true kv.1 = true)
      [("Host", "127.0.0.1"); ("Accept", "*/*"); ("Authorization", "Bearer c");
       ("X-OpenAI-Foo", "1"); ("x-openai-a_b", "2"); ("session_id", "s")].
Proof.
  apply (forward_headers_selection
           [("Host", "127.0.0.1"); ("Accept", "*/*"); ("Authorization", "Bearer c");
            ("X-OpenAI-Foo", "1"); ("x-openai-a_b", "2"); ("session_id", "s")]
           true).
  apply (bool_decide_unpack _). vm_compute. exact I.
Defined.

End RulesMore.
